(** * A notes manager over browser local storage: model and verification

    The program is one React component, [NotesApp] in [src/app/page.tsx].
    Its state variables, event handlers and the two [useEffect] hooks are
    embedded below as pure functions over an explicit state record and an
    explicit storage slot.

    Conventions of the model.
    - A JavaScript string is a sequence of UTF-16 code units.  The model
      covers the strings whose code units are all below 256 (Latin-1), as
      Rocq's [string]; this set is closed under every string operation the
      program uses ([toLowerCase], [trim], [includes], concatenation).
    - Timestamps are the integer milliseconds of [Date.now()], as [Z];
      JavaScript computes exactly on them up to 2^53.
    - [Date.now()], [crypto.randomUUID()] and [confirm(...)] are inputs of
      the handler that calls them. *)

From Stdlib Require Import String Ascii List ZArith NArith Bool Lia.
From Stdlib Require Import Permutation Sorted DecimalString DecimalN.
Import ListNotations.

Local Open Scope string_scope.
Local Open Scope Z_scope.

(** ** JavaScript string primitives used by the component *)

Module JsString.

(** Code unit of a character, as a number. *)
Definition code (c : ascii) : N := N_of_ascii c.

(** [String.prototype.toLowerCase] on one Latin-1 code unit: A-Z and the
    accented capitals U+00C0..U+00DE (the sign U+00D7 apart) move up by 32,
    every other unit below 256 is its own lower case. *)
Definition lower_char (c : ascii) : ascii :=
  let n := code c in
  if ((65 <=? n) && (n <=? 90) || (192 <=? n) && (n <=? 222) && negb (n =? 215))%N
  then ascii_of_N (n + 32)
  else c.

Fixpoint toLowerCase (s : string) : string :=
  match s with
  | EmptyString => EmptyString
  | String c s' => String (lower_char c) (toLowerCase s')
  end.

(** White space and line terminators of ECMAScript below 256:
    TAB, LF, VT, FF, CR, SPACE, NBSP. *)
Definition is_space (c : ascii) : bool :=
  let n := code c in
  ((9 <=? n) && (n <=? 13) || (n =? 32) || (n =? 160))%N.

Fixpoint trimStart (s : string) : string :=
  match s with
  | EmptyString => EmptyString
  | String c s' => if is_space c then trimStart s' else s
  end.

Fixpoint trimEnd (s : string) : string :=
  match s with
  | EmptyString => EmptyString
  | String c s' =>
      match trimEnd s' with
      | EmptyString => if is_space c then EmptyString else String c EmptyString
      | t => String c t
      end
  end.

(** [String.prototype.trim]. *)
Definition trim (s : string) : string := trimEnd (trimStart s).

(** [s.startsWith(q)]. *)
Fixpoint startsWith (s q : string) : bool :=
  match q, s with
  | EmptyString, _ => true
  | String _ _, EmptyString => false
  | String a q', String b s' => Ascii.eqb a b && startsWith s' q'
  end.

(** [s.includes(q)]: [q] occurs in [s] at some position. *)
Fixpoint includes (s q : string) : bool :=
  startsWith s q ||
  match s with
  | EmptyString => false
  | String _ s' => includes s' q
  end.

(** Truthiness of a string: only the empty string is falsy. *)
Definition truthy (s : string) : bool :=
  match s with EmptyString => false | _ => true end.

End JsString.
Import JsString.

(** ** The data model *)

(** [interface Note] *)
Module Note.
Record t : Type := mk
  { id : string
  ; title : string
  ; content : string
  ; tags : list string
  ; createdAt : Z
  ; updatedAt : Z }.
End Note.
Abbreviation Note := Note.t.

(** [Array.prototype.includes] on an array of strings. *)
Definition array_includes (l : list string) (x : string) : bool :=
  existsb (String.eqb x) l.

(** [Array.prototype.sort(cmp)]: since ES2019 the sort is stable, and for a
    consistent comparator its result is the one stable arrangement in which
    no element is followed by one that compares strictly before it.
    Insertion from the right computes that arrangement. *)
Section ArraySort.
Context {A : Type} (cmp : A -> A -> Z).

Fixpoint sort_insert (x : A) (l : list A) : list A :=
  match l with
  | [] => [x]
  | y :: l' => if cmp x y <=? 0 then x :: l else y :: sort_insert x l'
  end.

Fixpoint array_sort (l : list A) : list A :=
  match l with
  | [] => []
  | x :: l' => sort_insert x (array_sort l')
  end.
End ArraySort.

(** ** The query/filter view: [filteredNotes] *)

Section FilterView.
Variables (searchQuery : string) (selectedTag : option string).

Definition matchesSearch (note : Note) : bool :=
  String.eqb searchQuery EmptyString ||
  includes (toLowerCase (Note.title note)) (toLowerCase searchQuery) ||
  includes (toLowerCase (Note.content note)) (toLowerCase searchQuery) ||
  existsb (fun tag => includes (toLowerCase tag) (toLowerCase searchQuery))
          (Note.tags note).

Definition matchesTag (note : Note) : bool :=
  match selectedTag with
  | None => true
  | Some t => array_includes (Note.tags note) t
  end.

Definition filteredNotes (notes : list Note) : list Note :=
  array_sort (fun a b => Note.updatedAt b - Note.updatedAt a)
             (filter (fun note => matchesSearch note && matchesTag note) notes).
End FilterView.

(** ** The host's JSON codec

    [JSON.stringify] and [JSON.parse] belong to the host, not to the
    repository; they are modelled here on the texts the model covers,
    after the JSON grammar (ECMA-404).  A number is an integer literal; a
    literal with a fraction or an exponent, and a [\u] escape above U+00FF,
    denote values outside the model and are reported as [Unmodelled], about
    which nothing is claimed.  [SyntaxError] is the exception of that name
    thrown by [JSON.parse].  The parser recurses on fuel; [parse_total]
    below shows that the fuel [parse] provides is never used up. *)

Module Json.

#[local] Unset Elimination Schemes.
Inductive json : Type :=
| JNull
| JBool (b : bool)
| JNumber (z : Z)
| JString (s : string)
| JArray (l : list json)
| JObject (m : list (string * json)).
#[local] Set Elimination Schemes.

(** Induction on a value, with the hypothesis for every element of an array
    and every member of an object. *)
Section JsonInd.
Variable P : json -> Prop.
Hypothesis HNull : P JNull.
Hypothesis HBool : forall b, P (JBool b).
Hypothesis HNumber : forall z, P (JNumber z).
Hypothesis HString : forall s, P (JString s).
Hypothesis HArray : forall l, Forall P l -> P (JArray l).
Hypothesis HObject : forall m, Forall (fun kv => P (snd kv)) m -> P (JObject m).

Fixpoint json_ind (v : json) : P v :=
  match v with
  | JNull => HNull
  | JBool b => HBool b
  | JNumber z => HNumber z
  | JString s => HString s
  | JArray l =>
      HArray l
        ((fix all (l : list json) : Forall P l :=
            match l with
            | [] => Forall_nil P
            | x :: l' => Forall_cons x (json_ind x) (all l')
            end) l)
  | JObject m =>
      HObject m
        ((fix all (m : list (string * json)) : Forall (fun kv => P (snd kv)) m :=
            match m with
            | [] => Forall_nil _
            | kv :: m' => Forall_cons kv (json_ind (snd kv)) (all m')
            end) m)
  end.
End JsonInd.

Definition dquote : ascii := "034"%char.
Definition backslash : ascii := "092"%char.

(** *** Serialization *)

Definition hex_digit (n : N) : ascii :=
  if (n <? 10)%N then ascii_of_N (48 + n) else ascii_of_N (87 + n).

(** [QuoteJSONString] on one code unit: the two-character escapes, then
    lower-case [\u00xx] for the other control characters. *)
Definition escape_char (c : ascii) : string :=
  let n := code c in
  if (n =? 8)%N then String backslash "b"
  else if (n =? 9)%N then String backslash "t"
  else if (n =? 10)%N then String backslash "n"
  else if (n =? 12)%N then String backslash "f"
  else if (n =? 13)%N then String backslash "r"
  else if (n =? 34)%N then String backslash (String dquote EmptyString)
  else if (n =? 92)%N then String backslash (String backslash EmptyString)
  else if (n <? 32)%N then
    String backslash
      (String "u" (String "0" (String "0"
         (String (hex_digit (n / 16)) (String (hex_digit (n mod 16)) EmptyString)))))
  else String c EmptyString.

Fixpoint escape (s : string) : string :=
  match s with
  | EmptyString => EmptyString
  | String c s' => escape_char c ++ escape s'
  end.

Definition quote (s : string) : string :=
  String dquote (escape s ++ String dquote EmptyString).

Definition number_to_string (z : Z) : string :=
  if z <? 0 then String "-" (NilEmpty.string_of_uint (N.to_uint (Z.to_N (- z))))
  else NilEmpty.string_of_uint (N.to_uint (Z.to_N z)).

Fixpoint join (l : list string) : string :=
  match l with
  | [] => EmptyString
  | [x] => x
  | x :: l' => x ++ String "," (join l')
  end.

Fixpoint stringify (v : json) : string :=
  match v with
  | JNull => "null"
  | JBool true => "true"
  | JBool false => "false"
  | JNumber z => number_to_string z
  | JString s => quote s
  | JArray l => String "[" (join (map stringify l) ++ "]")
  | JObject m =>
      String "{"
        (join (map (fun kv => quote (fst kv) ++ String ":" (stringify (snd kv))) m)
         ++ "}")
  end.

(** *** Parsing *)

Inductive presult (A : Type) : Type :=
| POk (a : A) (rest : string)
| PSyntaxError
| PUnmodelled
| POutOfFuel.
Arguments POk {A} a rest.
Arguments PSyntaxError {A}.
Arguments PUnmodelled {A}.
Arguments POutOfFuel {A}.

Definition pbind {A B : Type} (r : presult A) (k : A -> string -> presult B)
  : presult B :=
  match r with
  | POk a rest => k a rest
  | PSyntaxError => PSyntaxError
  | PUnmodelled => PUnmodelled
  | POutOfFuel => POutOfFuel
  end.

Notation "' x , rest <- r ;; k" := (pbind r (fun x rest => k))
  (at level 10, x name, rest name, r at level 100, k at level 200).

(** JSON white space: space, TAB, LF, CR. *)
Definition is_ws (c : ascii) : bool :=
  let n := code c in
  ((n =? 32) || (n =? 9) || (n =? 10) || (n =? 13))%N.

Fixpoint skip_ws (s : string) : string :=
  match s with
  | EmptyString => EmptyString
  | String c s' => if is_ws c then skip_ws s' else s
  end.

Definition is_digit (c : ascii) : bool :=
  ((48 <=? code c) && (code c <=? 57))%N.

Fixpoint span_digits (s : string) : string * string :=
  match s with
  | EmptyString => (EmptyString, EmptyString)
  | String c s' =>
      if is_digit c
      then let (ds, rest) := span_digits s' in (String c ds, rest)
      else (EmptyString, s)
  end.

Definition starts_fraction_or_exponent (s : string) : bool :=
  match s with
  | String c _ => ((c =? ".") || (c =? "e") || (c =? "E"))%char
  | EmptyString => false
  end.

(** The digits of a number, after the optional sign. *)
Definition parse_digits (s : string) : presult N :=
  let (ds, rest) := span_digits s in
  match ds with
  | EmptyString => PSyntaxError
  | String d ds' =>
      if ((d =? "0")%char && truthy ds') then PSyntaxError
      else if starts_fraction_or_exponent rest then PUnmodelled
      else match NilEmpty.uint_of_string ds with
           | Some u => POk (N.of_uint u) rest
           | None => PSyntaxError
           end
  end.

Definition parse_number (s : string) : presult json :=
  match s with
  | String c s' =>
      if (c =? "-")%char
      then ' n, rest <- parse_digits s' ;; POk (JNumber (- Z.of_N n)) rest
      else ' n, rest <- parse_digits s ;; POk (JNumber (Z.of_N n)) rest
  | EmptyString => PSyntaxError
  end.

Definition hex_value (c : ascii) : option N :=
  let n := code c in
  if ((48 <=? n) && (n <=? 57))%N then Some (n - 48)%N
  else if ((97 <=? n) && (n <=? 102))%N then Some (n - 87)%N
  else if ((65 <=? n) && (n <=? 70))%N then Some (n - 55)%N
  else None.

Definition hex4 (a b c d : ascii) : option N :=
  match hex_value a, hex_value b, hex_value c, hex_value d with
  | Some x, Some y, Some z, Some w => Some (((x * 16 + y) * 16 + z) * 16 + w)%N
  | _, _, _, _ => None
  end.

Definition unescape (e : ascii) : option ascii :=
  let n := code e in
  if (n =? 34)%N then Some dquote
  else if (n =? 92)%N then Some backslash
  else if (n =? 47)%N then Some "/"%char
  else if (n =? 98)%N then Some (ascii_of_N 8)
  else if (n =? 102)%N then Some (ascii_of_N 12)
  else if (n =? 110)%N then Some (ascii_of_N 10)
  else if (n =? 114)%N then Some (ascii_of_N 13)
  else if (n =? 116)%N then Some (ascii_of_N 9)
  else None.

Definition pcons (c : ascii) (r : presult string) : presult string :=
  ' s, rest <- r ;; POk (String c s) rest.

(** The characters of a string literal, after its opening quote. *)
Fixpoint parse_chars (s : string) : presult string :=
  match s with
  | EmptyString => PSyntaxError
  | String c s' =>
      if (c =? dquote)%char then POk EmptyString s'
      else if (c =? backslash)%char then
        match s' with
        | EmptyString => PSyntaxError
        | String e s'' =>
            if (e =? "u")%char then
              match s'' with
              | String h1 (String h2 (String h3 (String h4 s3))) =>
                  match hex4 h1 h2 h3 h4 with
                  | None => PSyntaxError
                  | Some n =>
                      if (n <? 256)%N then pcons (ascii_of_N n) (parse_chars s3)
                      else PUnmodelled
                  end
              | _ => PSyntaxError
              end
            else
              match unescape e with
              | Some ch => pcons ch (parse_chars s'')
              | None => PSyntaxError
              end
        end
      else if (code c <? 32)%N then PSyntaxError
      else pcons c (parse_chars s')
  end.

Definition parse_string (s : string) : presult string :=
  match s with
  | String c s' => if (c =? dquote)%char then parse_chars s' else PSyntaxError
  | EmptyString => PSyntaxError
  end.

(** [next_is c s]: the next token is the character [c]; what follows it. *)
Definition next_is (c : ascii) (s : string) : option string :=
  match skip_ws s with
  | String d s' => if (c =? d)%char then Some s' else None
  | EmptyString => None
  end.

Definition expect (c : ascii) (s : string) : presult unit :=
  match next_is c s with
  | Some s' => POk tt s'
  | None => PSyntaxError
  end.

Fixpoint strip_prefix (lit s : string) : option string :=
  match lit, s with
  | EmptyString, _ => Some s
  | String a lit', String b s' => if (a =? b)%char then strip_prefix lit' s' else None
  | String _ _, EmptyString => None
  end.

Definition parse_literal (lit : string) (v : json) (s : string) : presult json :=
  match strip_prefix lit s with
  | Some rest => POk v rest
  | None => PSyntaxError
  end.

(** After a value inside [open ... close]: a comma and more, or [close]. *)
Definition more_or_close {A : Type} (close : ascii) (rest : string)
    (more : string -> presult A) (done : string -> presult A) : presult A :=
  match next_is "," rest with
  | Some rest' => more rest'
  | None =>
      match next_is close rest with
      | Some rest' => done rest'
      | None => PSyntaxError
      end
  end.

Fixpoint parse_value (fuel : nat) (s : string) {struct fuel} : presult json :=
  match fuel with
  | O => POutOfFuel
  | S fuel' =>
      match skip_ws s with
      | EmptyString => PSyntaxError
      | String c s' as s0 =>
          if (c =? "[")%char then
            match next_is "]" s' with
            | Some s'' => POk (JArray []) s''
            | None => ' l, rest <- parse_elements fuel' s' ;; POk (JArray l) rest
            end
          else if (c =? "{")%char then
            match next_is "}" s' with
            | Some s'' => POk (JObject []) s''
            | None => ' m, rest <- parse_members fuel' s' ;; POk (JObject m) rest
            end
          else if (c =? dquote)%char then
            ' str, rest <- parse_chars s' ;; POk (JString str) rest
          else if (c =? "-")%char || is_digit c then parse_number s0
          else if (c =? "t")%char then parse_literal "true" (JBool true) s0
          else if (c =? "f")%char then parse_literal "false" (JBool false) s0
          else if (c =? "n")%char then parse_literal "null" JNull s0
          else PSyntaxError
      end
  end

with parse_elements (fuel : nat) (s : string) {struct fuel} : presult (list json) :=
  match fuel with
  | O => POutOfFuel
  | S fuel' =>
      ' v, rest <- parse_value fuel' s ;;
      more_or_close "]" rest
        (fun rest' => ' l, rest'' <- parse_elements fuel' rest' ;; POk (v :: l) rest'')
        (fun rest' => POk [v] rest')
  end

with parse_members (fuel : nat) (s : string) {struct fuel}
  : presult (list (string * json)) :=
  match fuel with
  | O => POutOfFuel
  | S fuel' =>
      ' k, rest <- parse_string (skip_ws s) ;;
      ' _u, rest <- expect ":" rest ;;
      ' v, rest <- parse_value fuel' rest ;;
      more_or_close "}" rest
        (fun rest' => ' m, rest'' <- parse_members fuel' rest' ;; POk ((k, v) :: m) rest'')
        (fun rest' => POk [(k, v)] rest')
  end.

(** Outcome of [JSON.parse]. *)
Inductive parse_outcome : Type :=
| Value (v : json)
| SyntaxError
| Unmodelled
| OutOfFuel.

Definition parse_fuel (s : string) : nat := 2 * String.length s + 1.

Definition parse (s : string) : parse_outcome :=
  match parse_value (parse_fuel s) s with
  | POk v rest =>
      match skip_ws rest with
      | EmptyString => Value v
      | String _ _ => SyntaxError
      end
  | PSyntaxError => SyntaxError
  | PUnmodelled => Unmodelled
  | POutOfFuel => OutOfFuel
  end.

(** *** Vocabulary for the codec's correctness *)

(** What may follow a number literal: not a digit, nor the start of a
    fraction or an exponent. *)
Definition ends_number (rest : string) : Prop :=
  match rest with
  | EmptyString => True
  | String c _ => is_digit c = false /\ starts_fraction_or_exponent rest = false
  end.

(** A serialized value starts with a character that is neither white space
    nor a closing bracket, brace or comma. *)
Definition starts_value (c : ascii) : Prop :=
  is_ws c = false /\ ("]" =? c)%char = false /\ ("}" =? c)%char = false.

(** One member of an object, as [stringify] writes it. *)
Definition member (kv : string * json) : string :=
  quote (fst kv) ++ String ":" (stringify (snd kv)).

(** [v] is parsed back from its serialization, whatever follows it. *)
Definition round_trips (v : json) : Prop :=
  forall rest fuel,
    (2 * String.length (stringify v) + 1 <= fuel)%nat ->
    ends_number rest ->
    parse_value fuel (stringify v ++ rest) = POk v rest.

(** A successful parse leaves less than it was given. *)
Definition consumes {A : Type} (r : presult A) (s : string) : Prop :=
  forall a rest, r = POk a rest -> (String.length rest < String.length s)%nat.

End Json.

(** ** Notes as JSON values *)

(** The value [JSON.stringify] sees for a [Note]: its six own properties,
    in the order in which [saveNote] creates them (the spread in the update
    branch keeps that order). *)
Definition encode_note (n : Note) : Json.json :=
  Json.JObject
    [ ("id", Json.JString (Note.id n))
    ; ("title", Json.JString (Note.title n))
    ; ("content", Json.JString (Note.content n))
    ; ("tags", Json.JArray (map Json.JString (Note.tags n)))
    ; ("createdAt", Json.JNumber (Note.createdAt n))
    ; ("updatedAt", Json.JNumber (Note.updatedAt n)) ].

Definition encode_notes (ns : list Note) : Json.json :=
  Json.JArray (map encode_note ns).

(** [JSON.stringify(notes)] *)
Definition JSON_stringify (ns : list Note) : string :=
  Json.stringify (encode_notes ns).

(** Reading a parsed value back as a [Note[]].  [JSON.parse] is untyped:
    only a value of exactly the shape above is a collection of the model. *)
Fixpoint decode_strings (l : list Json.json) : option (list string) :=
  match l with
  | [] => Some []
  | Json.JString s :: l' => option_map (cons s) (decode_strings l')
  | _ :: _ => None
  end.

Definition decode_note (v : Json.json) : option Note :=
  match v with
  | Json.JObject
      [ (k1, Json.JString i); (k2, Json.JString t); (k3, Json.JString c)
      ; (k4, Json.JArray ts); (k5, Json.JNumber ca); (k6, Json.JNumber ua) ] =>
      if String.eqb k1 "id" && String.eqb k2 "title" && String.eqb k3 "content"
         && String.eqb k4 "tags" && String.eqb k5 "createdAt"
         && String.eqb k6 "updatedAt"
      then option_map (fun tg => Note.mk i t c tg ca ua) (decode_strings ts)
      else None
  | _ => None
  end.

Fixpoint decode_list (l : list Json.json) : option (list Note) :=
  match l with
  | [] => Some []
  | v :: l' =>
      match decode_note v, decode_list l' with
      | Some n, Some ns => Some (n :: ns)
      | _, _ => None
      end
  end.

Definition decode_notes (v : Json.json) : option (list Note) :=
  match v with
  | Json.JArray l => decode_list l
  | _ => None
  end.

(** ** The component's state and the storage slot *)

(** The nine [useState] variables of [NotesApp]. *)
Record State : Type := mkState
  { notes : list Note
  ; isEditing : bool
  ; currentNote : option Note
  ; searchQuery : string
  ; selectedTag : option string
  ; title : string
  ; content : string
  ; tagInput : string
  ; currentTags : list string }.

(** The state of the first render. *)
Definition initialState : State :=
  mkState [] false None EmptyString None EmptyString EmptyString EmptyString [].

(** The component together with the slot [localStorage['notes']]:
    [None] is an absent key ([getItem] returns [null]). *)
Record World : Type := mkWorld
  { state : State
  ; localStorage : option string }.

(** What running a piece of the program leads to: it completes with a
    result, an exception escapes it, or it meets a value the model does not
    cover (nothing is claimed then). *)
Inductive outcome (A : Type) : Type :=
| Done (a : A)
| Throws
| Outside.
Arguments Done {A} a.
Arguments Throws {A}.
Arguments Outside {A}.

(** *** The two effects *)

(** The load effect: the collection the component holds once the effect
    has run, starting from [useState<Note[]>([])].
<<
    const stored = localStorage.getItem('notes')
    if (stored) { setNotes(JSON.parse(stored)) }
>> *)
Definition load (slot : option string) : outcome (list Note) :=
  match slot with
  | None => Done []
  | Some stored =>
      if truthy stored then
        match Json.parse stored with
        | Json.Value v =>
            match decode_notes v with
            | Some ns => Done ns
            | None => Outside
            end
        | Json.SyntaxError => Throws
        | Json.Unmodelled => Outside
        | Json.OutOfFuel => Outside
        end
      else Done []
  end.

(** The persist effect, run after every render in which [notes] changed.
<<
    if (notes.length > 0) { localStorage.setItem('notes', JSON.stringify(notes)) }
>> *)
Definition persist (ns : list Note) (slot : option string) : option string :=
  if (0 <? length ns)%nat then Some (JSON_stringify ns) else slot.

(** [setNotes(ns)] with a fresh array: the next render holds [ns] and, the
    dependency [notes] having changed, the persist effect runs. *)
Definition setNotes (ns : list Note) (w : World) : World :=
  let s := state w in
  mkWorld
    (mkState ns (isEditing s) (currentNote s) (searchQuery s) (selectedTag s)
             (title s) (content s) (tagInput s) (currentTags s))
    (persist ns (localStorage w)).

(** Mounting the component on a storage slot: the first render and both
    effects.  When the load effect sets no collection the persist effect
    sees the empty one and writes nothing, as [setNotes []] does. *)
Definition mount (slot : option string) : outcome World :=
  match load slot with
  | Done ns => Done (setNotes ns (mkWorld initialState slot))
  | Throws => Throws
  | Outside => Outside
  end.

(** *** Event handlers *)

Definition startNewNote (s : State) : State :=
  mkState (notes s) true None (searchQuery s) (selectedTag s)
          EmptyString EmptyString EmptyString [].

Definition editNote (note : Note) (s : State) : State :=
  mkState (notes s) true (Some note) (searchQuery s) (selectedTag s)
          (Note.title note) (Note.content note) EmptyString (Note.tags note).

Definition cancelEdit (s : State) : State :=
  mkState (notes s) false None (searchQuery s) (selectedTag s)
          EmptyString EmptyString EmptyString [].

(** The collection [saveNote] passes to [setNotes]. *)
Definition saved_notes (now : Z) (uuid : string) (s : State) : list Note :=
  match currentNote s with
  | Some cur =>
      map (fun n =>
             if String.eqb (Note.id n) (Note.id cur)
             then Note.mk (Note.id n) (title s) (content s) (currentTags s)
                          (Note.createdAt n) now
             else n)
          (notes s)
  | None =>
      Note.mk uuid (title s) (content s) (currentTags s) now now :: notes s
  end.

(** [saveNote], with [now = Date.now()] and [uuid = crypto.randomUUID()]. *)
Definition saveNote (now : Z) (uuid : string) (w : World) : World :=
  let s := state w in
  if negb (truthy (trim (title s))) && negb (truthy (trim (content s))) then w
  else
    let w' := setNotes (saved_notes now uuid s) w in
    mkWorld (cancelEdit (state w')) (localStorage w').

(** [deleteNote(id)], with [confirmed] the answer to the dialog. *)
Definition deleteNote (id : string) (confirmed : bool) (w : World) : World :=
  if confirmed
  then setNotes (filter (fun n => negb (String.eqb (Note.id n) id)) (notes (state w))) w
  else w.

Definition addTag (s : State) : State :=
  let tag := toLowerCase (trim (tagInput s)) in
  if truthy tag && negb (array_includes (currentTags s) tag)
  then mkState (notes s) (isEditing s) (currentNote s) (searchQuery s)
               (selectedTag s) (title s) (content s) EmptyString
               (currentTags s ++ [tag])
  else s.

Definition removeTag (tagToRemove : string) (s : State) : State :=
  mkState (notes s) (isEditing s) (currentNote s) (searchQuery s)
          (selectedTag s) (title s) (content s) (tagInput s)
          (filter (fun t => negb (String.eqb t tagToRemove)) (currentTags s)).

(** Typing into the tag field: [setTagInput(e.target.value)]. *)
Definition setTagInput (v : string) (s : State) : State :=
  mkState (notes s) (isEditing s) (currentNote s) (searchQuery s)
          (selectedTag s) (title s) (content s) v (currentTags s).

(** The visible set of a state. *)
Definition visible (s : State) : list Note :=
  filteredNotes (searchQuery s) (selectedTag s) (notes s).

(** The remaining setters, called from the inputs' [onChange] and from the
    tag filter buttons. *)
Definition setTitle (v : string) (s : State) : State :=
  mkState (notes s) (isEditing s) (currentNote s) (searchQuery s)
          (selectedTag s) v (content s) (tagInput s) (currentTags s).

Definition setContent (v : string) (s : State) : State :=
  mkState (notes s) (isEditing s) (currentNote s) (searchQuery s)
          (selectedTag s) (title s) v (tagInput s) (currentTags s).

Definition setSearchQuery (v : string) (s : State) : State :=
  mkState (notes s) (isEditing s) (currentNote s) v
          (selectedTag s) (title s) (content s) (tagInput s) (currentTags s).

Definition setSelectedTag (t : option string) (s : State) : State :=
  mkState (notes s) (isEditing s) (currentNote s) (searchQuery s)
          t (title s) (content s) (tagInput s) (currentTags s).

(** A handler that touches the component's state only. *)
Definition on_state (f : State -> State) (w : World) : World :=
  mkWorld (f (state w)) (localStorage w).

(** One user event.  A note is opened for editing from the visible list. *)
Inductive step : World -> World -> Prop :=
| step_startNewNote w : step w (on_state startNewNote w)
| step_editNote w note :
    In note (visible (state w)) -> step w (on_state (editNote note) w)
| step_saveNote w now uuid : step w (saveNote now uuid w)
| step_deleteNote w id confirmed : step w (deleteNote id confirmed w)
| step_cancelEdit w : step w (on_state cancelEdit w)
| step_addTag w : step w (on_state addTag w)
| step_removeTag w t : step w (on_state (removeTag t) w)
| step_setTitle w v : step w (on_state (setTitle v) w)
| step_setContent w v : step w (on_state (setContent v) w)
| step_setTagInput w v : step w (on_state (setTagInput v) w)
| step_setSearchQuery w v : step w (on_state (setSearchQuery v) w)
| step_setSelectedTag w t : step w (on_state (setSelectedTag t) w).

(** The worlds a session can be in after mounting on [slot]. *)
Inductive reachable (slot : option string) : World -> Prop :=
| reach_mount w : mount slot = Done w -> reachable slot w
| reach_step w w' : reachable slot w -> step w w' -> reachable slot w'.

(** ** The derived tag list and the list view *)

(** [Array.prototype.sort()] with no comparator orders strings by their
    code units. *)
Definition default_cmp (a b : string) : Z :=
  match String.compare a b with
  | Lt => -1
  | Eq => 0
  | Gt => 1
  end.

(** [tagSet.add(tag)]: a [Set] keeps its elements in insertion order and
    ignores a value it already has. *)
Definition set_add (acc : list string) (tag : string) : list string :=
  if array_includes acc tag then acc else (acc ++ [tag])%list.

(** [notes.forEach(note => note.tags.forEach(tag => tagSet.add(tag)))] *)
Definition tagSet (ns : list Note) : list string :=
  fold_left (fun acc note => fold_left set_add (Note.tags note) acc) ns [].

(** [allTags]: [Array.from(tagSet).sort()]. *)
Definition allTags (ns : list Note) : list string :=
  array_sort default_cmp (tagSet ns).

(** A tag button of the filter bar:
    [setSelectedTag(selectedTag === tag ? null : tag)]. *)
Definition toggleTag (tag : string) (s : State) : State :=
  setSelectedTag
    (match selectedTag s with
     | Some t => if String.eqb t tag then None else Some tag
     | None => Some tag
     end) s.

(** Truthiness of [selectedTag]: [null] and the empty string are falsy. *)
Definition truthy_tag (t : option string) : bool :=
  match t with
  | None => false
  | Some t => truthy t
  end.

(** The text shown in place of the list when nothing is visible:
    [searchQuery || selectedTag ? 'No notes found' : 'No notes yet']. *)
Definition emptyMessage (s : State) : option string :=
  if (length (visible s) =? 0)%nat
  then Some (if truthy (searchQuery s) || truthy_tag (selectedTag s)
             then "No notes found" else "No notes yet")
  else None.

(** ** Vocabulary of the specification *)

(** Two strings are equal up to letter case. *)
Inductive eq_nocase : string -> string -> Prop :=
| eq_nocase_nil : eq_nocase EmptyString EmptyString
| eq_nocase_cons a b s t :
    lower_char a = lower_char b -> eq_nocase s t ->
    eq_nocase (String a s) (String b t).

(** [q] is case-insensitively contained in [s]: some stretch of [s] equals
    [q] up to letter case. *)
Definition contained_nocase (q s : string) : Prop :=
  exists pre mid post, s = pre ++ mid ++ post /\ eq_nocase mid q.

(** Most recently modified first. *)
Definition newer_or_same (a b : Note) : Prop :=
  Note.updatedAt a >= Note.updatedAt b.

(** A tag list as the data model wants it: pairwise distinct lower-case
    strings. *)
Definition tags_normal (ts : list string) : Prop :=
  NoDup ts /\ Forall (fun t => toLowerCase t = t) ts.

(** No two entries of a tag list are equal up to letter case. *)
Definition no_case_variants (ts : list string) : Prop :=
  forall i j a b,
    nth_error ts i = Some a -> nth_error ts j = Some b ->
    eq_nocase a b -> i = j.

(** The buffer passes the guard of [saveNote]. *)
Definition savable (s : State) : Prop :=
  truthy (trim (title s)) = true \/ truthy (trim (content s)) = true.

(** The mutating operations of the store: add, update, remove. *)
Inductive mutation : World -> World -> Prop :=
| mut_add w now uuid :
    currentNote (state w) = None -> savable (state w) ->
    mutation w (saveNote now uuid w)
| mut_update w now uuid cur :
    currentNote (state w) = Some cur -> savable (state w) ->
    mutation w (saveNote now uuid w)
| mut_remove w id :
    mutation w (deleteNote id true w).

(** Confirmed deletions, one after the other. *)
Definition deleteAll (ids : list string) (w : World) : World :=
  fold_left (fun w id => deleteNote id true w) ids w.

(** Every note and the edit buffer carry a normal tag list. *)
Definition tags_inv (w : World) : Prop :=
  Forall (fun n => tags_normal (Note.tags n)) (notes (state w))
  /\ tags_normal (currentTags (state w)).

(** A non-empty collection is the one the storage slot holds. *)
Definition synced (w : World) : Prop :=
  notes (state w) <> [] ->
  localStorage w = Some (JSON_stringify (notes (state w))).

(** ** Sample data *)

Definition note_titled (t : string) : Note :=
  Note.mk "n1" t EmptyString [] 0 0.

Definition note_A : Note := Note.mk "A" "a" "a" ["x"] 100 100.
Definition note_B : Note := Note.mk "B" "b" "b" ["y"] 200 200.

Definition world_AB : World :=
  mkWorld (mkState [note_B; note_A] true None EmptyString None
                   EmptyString EmptyString "tag" ["x"])
          (Some (JSON_stringify [note_B; note_A])).

Definition world_editing_A : World :=
  mkWorld (mkState [note_B; note_A] true (Some note_A) EmptyString None
                   "a2" "text" EmptyString ["x"; "z"])
          (Some (JSON_stringify [note_B; note_A])).

Definition world_new : World :=
  mkWorld (mkState [note_B; note_A] true None EmptyString None
                   "t" EmptyString EmptyString ["x"])
          (Some (JSON_stringify [note_B; note_A])).

(** A string of white space only (the empty string included). *)
Fixpoint all_space (s : string) : bool :=
  match s with
  | EmptyString => true
  | String c s' => is_space c && all_space s'
  end.

(** No note was modified before it was created. *)
Definition timestamps_ok (ns : list Note) : Prop :=
  Forall (fun n => Note.createdAt n <= Note.updatedAt n) ns.

(** The note [n], touched at time [now]. *)
Definition touched (now : Z) (n : Note) : Note :=
  Note.mk (Note.id n) (Note.title n) (Note.content n) (Note.tags n)
          (Note.createdAt n) now.

(** An id as [crypto.randomUUID()] formats it, a stored note that carries
    it, and the editor about to save a new note over that collection. *)
Definition sample_uuid : string := "123e4567-e89b-42d3-a456-426614174000".

Definition note_U : Note := Note.mk sample_uuid "u" "u" [] 100 100.

Definition world_U : World :=
  mkWorld (mkState [note_U] true None EmptyString None
                   "t" EmptyString EmptyString [])
          (Some (JSON_stringify [note_U])).

(** A session on an empty slot: a note is given a title, the tag "Work" is
    added, then the tag "work", and the note is saved. *)
Definition world_tagged : World :=
  saveNote 300 "C"
    (on_state addTag
       (on_state (setTagInput "work")
          (on_state addTag
             (on_state (setTagInput "Work")
                (on_state (setTitle "t")
                   (on_state startNewNote
                      (setNotes [] (mkWorld initialState None)))))))).

(** A session on an empty slot: a note is typed and saved. *)
Definition world_session : World :=
  saveNote 300 "C"
    (on_state (setTitle "t")
       (on_state startNewNote (setNotes [] (mkWorld initialState None)))).

(** * Properties *)

(** ** Strings *)

Lemma startsWith_spec s q :
  startsWith s q = true <-> exists post, s = q ++ post.
Proof.
  revert s; induction q as [|a q IH]; intros s; simpl.
  - split; [intros _; now exists s | now destruct s].
  - destruct s as [|b s]; simpl.
    + split; [discriminate | intros [post H]; discriminate].
    + rewrite andb_true_iff, Ascii.eqb_eq, IH. split.
      * intros [-> [post ->]]. now exists post.
      * intros [post H]. injection H as -> ->. split; [reflexivity | now exists post].
Qed.

Lemma includes_spec s q :
  includes s q = true <-> exists pre post, s = pre ++ q ++ post.
Proof.
  induction s as [|c s IH]; cbn [includes]; rewrite orb_true_iff, startsWith_spec.
  - split.
    + intros [[post H] | H]; [| discriminate]. now exists EmptyString, post.
    + intros [pre [post H]]. left. destruct pre; simpl in H.
      * now exists post.
      * discriminate.
  - rewrite IH. split.
    + intros [[post H] | [pre [post H]]].
      * now exists EmptyString, post.
      * exists (String c pre), post. simpl. now rewrite H.
    + intros [pre [post H]]. destruct pre as [|d pre]; simpl in H.
      * left. now exists post.
      * right. injection H as _ H. now exists pre, post.
Qed.

Lemma toLowerCase_app a b :
  toLowerCase (a ++ b) = toLowerCase a ++ toLowerCase b.
Proof. induction a; simpl; congruence. Qed.

Lemma toLowerCase_split s a b :
  toLowerCase s = a ++ b ->
  exists s1 s2, s = s1 ++ s2 /\ toLowerCase s1 = a /\ toLowerCase s2 = b.
Proof.
  revert s; induction a as [|c a IH]; intros s H; simpl in H.
  - now exists EmptyString, s.
  - destruct s as [|d s]; simpl in H; [discriminate |].
    injection H as Hc H. destruct (IH _ H) as (s1 & s2 & -> & <- & <-).
    exists (String d s1), s2. simpl. now rewrite Hc.
Qed.

Lemma eq_nocase_lower a b :
  eq_nocase a b <-> toLowerCase a = toLowerCase b.
Proof.
  split.
  - induction 1; simpl; congruence.
  - revert b; induction a as [|c a IH]; intros [|d b] H; simpl in H;
      try discriminate; [constructor |].
    injection H as Hc H. constructor; auto.
Qed.

(** The test the code performs is containment up to letter case. *)
Lemma includes_lower_spec s q :
  includes (toLowerCase s) (toLowerCase q) = true <-> contained_nocase q s.
Proof.
  rewrite includes_spec. unfold contained_nocase. split.
  - intros (pre & post & H).
    apply toLowerCase_split in H as (s1 & s2 & -> & <- & H).
    apply toLowerCase_split in H as (s3 & s4 & -> & H & <-).
    exists s1, s3, s4. split; [reflexivity | now apply eq_nocase_lower].
  - intros (pre & mid & post & -> & H). apply eq_nocase_lower in H.
    exists (toLowerCase pre), (toLowerCase post).
    now rewrite !toLowerCase_app, H.
Qed.

Lemma array_includes_spec l x : array_includes l x = true <-> In x l.
Proof.
  unfold array_includes. rewrite existsb_exists. split.
  - intros (y & Hy & E). apply String.eqb_eq in E. now subst.
  - intros H. exists x. split; [assumption | apply String.eqb_refl].
Qed.

(** ** Sorting *)

Section ArraySortFacts.
Context {A : Type} (cmp : A -> A -> Z).

Lemma sort_insert_perm x l : Permutation (x :: l) (sort_insert cmp x l).
Proof.
  induction l as [|y l IH]; simpl; [reflexivity |].
  destruct (cmp x y <=? 0); [reflexivity |].
  rewrite perm_swap. now constructor.
Qed.

Lemma array_sort_perm l : Permutation l (array_sort cmp l).
Proof.
  induction l as [|x l IH]; simpl; [constructor |].
  rewrite <- sort_insert_perm. now constructor.
Qed.

(** The comparator orders by a key, largest key first. *)
Variable key : A -> Z.
Hypothesis cmp_key : forall a b, cmp a b = key b - key a.

Let ge_key (a b : A) : Prop := key a >= key b.

Lemma sort_insert_sorted x l :
  StronglySorted ge_key l -> StronglySorted ge_key (sort_insert cmp x l).
Proof.
  induction 1 as [|y l Hl IH Hy]; simpl.
  - repeat constructor.
  - rewrite cmp_key. destruct (Z.leb_spec (key y - key x) 0) as [Hle | Hgt].
    + constructor; [now constructor |].
      constructor; [unfold ge_key; lia |].
      eapply Forall_impl; [| exact Hy]. unfold ge_key. intros; lia.
    + constructor; [assumption |].
      eapply Permutation_Forall; [apply sort_insert_perm |].
      constructor; [unfold ge_key; lia | assumption].
Qed.

Lemma array_sort_sorted l : StronglySorted ge_key (array_sort cmp l).
Proof.
  induction l as [|x l IH]; simpl; [constructor | now apply sort_insert_sorted].
Qed.
End ArraySortFacts.

(** ** The query/filter view *)

Lemma matchesSearch_spec query n :
  matchesSearch query n = true <->
  (query = EmptyString
   \/ contained_nocase query (Note.title n)
   \/ contained_nocase query (Note.content n)
   \/ exists t, In t (Note.tags n) /\ contained_nocase query t).
Proof.
  unfold matchesSearch.
  rewrite !orb_true_iff, String.eqb_eq, !includes_lower_spec, existsb_exists.
  setoid_rewrite includes_lower_spec. tauto.
Qed.

Lemma matchesTag_spec tagFilter n :
  matchesTag tagFilter n = true <->
  (tagFilter = None \/ exists t, tagFilter = Some t /\ In t (Note.tags n)).
Proof.
  destruct tagFilter as [t|]; simpl.
  - rewrite array_includes_spec. split.
    + intros H. right. now exists t.
    + intros [H | (t' & H & Hin)]; [discriminate | now injection H as ->].
  - split; [now left | reflexivity].
Qed.

(** C2: a note is in the visible set exactly when it is in the collection,
    the query is empty or contained up to letter case in its title, its
    content or one of its tags, and the tag filter is unset or one of its
    tags. *)
Theorem filteredNotes_membership
  (ns : list Note) (query : string) (tagFilter : option string) (n : Note) :
  In n (filteredNotes query tagFilter ns) <->
  In n ns
  /\ (query = EmptyString
      \/ contained_nocase query (Note.title n)
      \/ contained_nocase query (Note.content n)
      \/ exists t, In t (Note.tags n) /\ contained_nocase query t)
  /\ (tagFilter = None \/ exists t, tagFilter = Some t /\ In t (Note.tags n)).
Proof.
  unfold filteredNotes.
  rewrite <- matchesSearch_spec, <- matchesTag_spec, <- andb_true_iff.
  split; intros H.
  - eapply Permutation_in in H; [| symmetry; apply array_sort_perm].
    now apply filter_In in H.
  - eapply Permutation_in; [apply array_sort_perm |].
    now apply filter_In.
Qed.

(** The specification's example: the query "wor" shows "Work plan" and
    hides "Home". *)
Example query_wor :
  filteredNotes "wor" None [note_titled "Work plan"; note_titled "Home"]
  = [note_titled "Work plan"].
Proof. reflexivity. Qed.

(** C3: the visible set is sorted by [updatedAt], most recent first; with an
    empty query and no tag filter it holds exactly the notes of the
    collection. *)
Theorem filteredNotes_sorted
  (ns : list Note) (query : string) (tagFilter : option string) :
  StronglySorted newer_or_same (filteredNotes query tagFilter ns)
  /\ Permutation ns (filteredNotes EmptyString None ns).
Proof.
  split.
  - unfold filteredNotes.
    apply (array_sort_sorted _ Note.updatedAt). reflexivity.
  - unfold filteredNotes.
    assert (E : filter (fun note => matchesSearch EmptyString note
                                    && matchesTag None note) ns = ns).
    { induction ns as [|n ns IH]; [reflexivity |].
      cbn [filter]. rewrite IH. reflexivity. }
    rewrite E. apply array_sort_perm.
Qed.

(** The specification's example: A (updatedAt 100) and B (updatedAt 200)
    are shown as B, A. *)
Example visible_order_B_A :
  filteredNotes EmptyString None [note_A; note_B] = [note_B; note_A].
Proof. reflexivity. Qed.

(** ** Saving *)

(** C4: saving an edit buffer whose title and content are both empty changes
    neither the collection nor the storage slot nor anything else. *)
Theorem saveNote_empty_noop (w : World) (now : Z) (uuid : string) :
  title (state w) = EmptyString ->
  content (state w) = EmptyString ->
  saveNote now uuid w = w.
Proof.
  intros Ht Hc. unfold saveNote. now rewrite Ht, Hc.
Qed.

Lemma saveNote_empty_noop_witness :
  saveNote 300 "fresh" world_AB = world_AB.
Proof.
  apply saveNote_empty_noop; reflexivity.
Defined.

Lemma saveNote_notes w now uuid :
  savable (state w) ->
  notes (state (saveNote now uuid w)) = saved_notes now uuid (state w).
Proof.
  intros H. unfold saveNote.
  destruct H as [H | H]; rewrite H; simpl; [| rewrite andb_false_r]; reflexivity.
Qed.

(** C6: saving while a note [cur] is being edited rewrites, at each position,
    a note with [cur]'s id to the buffer's title, content and tags with
    [updatedAt = now], keeping its id and createdAt; every other note, the
    order and the length stay; with no note of that id the collection is
    unchanged. *)
Theorem saveNote_update (w : World) (now : Z) (uuid : string) (cur : Note) :
  currentNote (state w) = Some cur ->
  savable (state w) ->
  let s := state w in
  let ns' := notes (state (saveNote now uuid w)) in
  length ns' = length (notes s)
  /\ (forall i n, nth_error (notes s) i = Some n ->
        exists n', nth_error ns' i = Some n'
          /\ (Note.id n = Note.id cur ->
                n' = Note.mk (Note.id n) (title s) (content s) (currentTags s)
                             (Note.createdAt n) now)
          /\ (Note.id n <> Note.id cur -> n' = n))
  /\ ((forall n, In n (notes s) -> Note.id n <> Note.id cur) -> ns' = notes s).
Proof.
  intros Hcur Hsave s ns'. subst s ns'.
  rewrite saveNote_notes by assumption.
  unfold saved_notes. rewrite Hcur.
  set (s := state w).
  split; [apply length_map | split].
  - intros i n Hn. rewrite nth_error_map, Hn. simpl.
    eexists; split; [reflexivity |].
    destruct (String.eqb_spec (Note.id n) (Note.id cur)); split; congruence.
  - intros Hfresh. rewrite <- (map_id (notes s)) at 2.
    apply map_ext_in. intros n Hn.
    destruct (String.eqb_spec (Note.id n) (Note.id cur)); [| reflexivity].
    now apply Hfresh in Hn.
Qed.

Lemma saveNote_update_witness :
  length (notes (state (saveNote 300 "fresh" world_editing_A))) = 2%nat.
Proof.
  apply (saveNote_update world_editing_A 300 "fresh" note_A);
    [reflexivity | left; reflexivity].
Defined.

(** C7, as the specification states it, fails: the id of the new note is
    whatever [crypto.randomUUID()] returns, and [saveNote] does not compare
    it with the ids in the collection.  When the generator returns the id
    of the stored note, two notes share that id. *)
Lemma saveNote_add_id_not_unique :
  ~ (forall (w : World) (now : Z) (uuid : string),
        currentNote (state w) = None ->
        savable (state w) ->
        NoDup (map Note.id (notes (state w))) ->
        NoDup (map Note.id (notes (state (saveNote now uuid w))))).
Proof.
  intros H.
  specialize (H world_U 300 sample_uuid eq_refl (or_introl eq_refl)).
  assert (Hnd : NoDup (map Note.id (notes (state world_U)))).
  { cbn. repeat constructor. intros []. }
  apply H in Hnd. cbn in Hnd.
  apply NoDup_cons_iff in Hnd as [Hnin _]. apply Hnin. now left.
Qed.

(** C7, amended: saving while no note is being edited puts in front of the
    collection a note whose id is the generated one and whose [createdAt]
    and [updatedAt] are both [now]; the collection that was there follows
    it unchanged.  The ids of the result are pairwise distinct exactly when
    those of the collection were and the generated id is not among them. *)
Theorem saveNote_add (w : World) (now : Z) (uuid : string) :
  currentNote (state w) = None ->
  savable (state w) ->
  let s := state w in
  let ns' := notes (state (saveNote now uuid w)) in
  ns' = Note.mk uuid (title s) (content s) (currentTags s) now now :: notes s
  /\ (NoDup (map Note.id ns')
      <-> ~ In uuid (map Note.id (notes s)) /\ NoDup (map Note.id (notes s))).
Proof.
  intros Hcur Hsave s ns'. subst s ns'.
  rewrite saveNote_notes by assumption.
  unfold saved_notes. rewrite Hcur.
  split; [reflexivity |].
  cbn [map Note.id]. apply NoDup_cons_iff.
Qed.

Lemma saveNote_add_witness :
  notes (state (saveNote 300 "C" world_new))
  = [Note.mk "C" "t" EmptyString ["x"] 300 300; note_B; note_A]
  /\ NoDup (map Note.id (notes (state (saveNote 300 "C" world_new)))).
Proof.
  pose proof (saveNote_add world_new 300 "C" eq_refl (or_introl eq_refl)) as H.
  cbv zeta in H. destruct H as [H1 H2].
  split; [exact H1 | apply H2]. split.
  - simpl. intros [H | [H | []]]; discriminate H.
  - simpl. repeat constructor; simpl; intuition discriminate.
Defined.

(** ** Deleting *)

Lemma filter_other_ids_fresh (id : string) (ns : list Note) :
  (forall n, In n ns -> Note.id n <> id) ->
  filter (fun n => negb (String.eqb (Note.id n) id)) ns = ns.
Proof.
  induction ns as [|n ns IH]; intros H; simpl; [reflexivity |].
  destruct (String.eqb_spec (Note.id n) id) as [E | _]; simpl.
  - exfalso. apply (H n); [now left | exact E].
  - rewrite IH; [reflexivity |]. intros m Hm. apply H. now right.
Qed.

(** C8: deleting an id that no note has leaves the collection as it is,
    whatever the answer to the dialog; deleting, once confirmed, the id of a
    note removes that note and keeps the notes before and after it in their
    order; in general exactly the notes with another id remain. *)
Theorem deleteNote_spec (w : World) (id : string) :
  let ns := notes (state w) in
  (forall confirmed,
      (forall n, In n ns -> Note.id n <> id) ->
      notes (state (deleteNote id confirmed w)) = ns)
  /\ (forall pre n post,
        ns = (pre ++ n :: post)%list -> Note.id n = id ->
        (forall m, In m (pre ++ post)%list -> Note.id m <> id) ->
        notes (state (deleteNote id true w)) = (pre ++ post)%list)
  /\ (forall m, In m (notes (state (deleteNote id true w)))
                <-> In m ns /\ Note.id m <> id).
Proof.
  intros ns. subst ns. repeat split.
  - intros [|] H; simpl; [now apply filter_other_ids_fresh | reflexivity].
  - intros pre n post E Hid Hrest. simpl. rewrite E, filter_app. simpl.
    rewrite Hid, String.eqb_refl. simpl.
    rewrite <- filter_app. apply filter_other_ids_fresh. exact Hrest.
  - simpl in H. now apply filter_In in H.
  - simpl in H. apply filter_In in H as [_ H].
    destruct (String.eqb_spec (Note.id m) id); [discriminate | assumption].
  - intros [Hin Hid]. simpl. apply filter_In. split; [assumption |].
    now destruct (String.eqb_spec (Note.id m) id).
Qed.

Lemma deleteNote_spec_witness :
  notes (state (deleteNote "A" true world_AB)) = ([note_B] ++ [])%list.
Proof.
  apply (proj1 (proj2 (deleteNote_spec world_AB "A")) [note_B] note_A []).
  - reflexivity.
  - reflexivity.
  - intros m [<- | []]. discriminate.
Defined.

(** ** Tags *)

Lemma lower_char_idem c : lower_char (lower_char c) = lower_char c.
Proof. destruct c as [[] [] [] [] [] [] [] []]; reflexivity. Qed.

Lemma toLowerCase_idem s : toLowerCase (toLowerCase s) = toLowerCase s.
Proof. induction s; simpl; [reflexivity | now rewrite lower_char_idem, IHs]. Qed.

Lemma tags_normal_no_case_variants ts :
  tags_normal ts -> no_case_variants ts.
Proof.
  intros [Hnd Hlow] i j a b Hi Hj Hab.
  apply eq_nocase_lower in Hab.
  rewrite Forall_forall in Hlow.
  rewrite (Hlow a), (Hlow b) in Hab by (eapply nth_error_In; eassumption).
  subst b. rewrite NoDup_nth_error in Hnd. apply Hnd; [| congruence].
  apply nth_error_Some. congruence.
Qed.

Lemma truthy_false s : truthy s = false -> s = EmptyString.
Proof. destruct s; [reflexivity | discriminate]. Qed.

Lemma addTag_notes (s : State) : notes (addTag s) = notes s.
Proof. unfold addTag. now destruct (_ && _). Qed.

Lemma addTag_tags_normal (s : State) :
  tags_normal (currentTags s) -> tags_normal (currentTags (addTag s)).
Proof.
  intros [Hnd Hlow]. unfold addTag.
  set (tag := toLowerCase (trim (tagInput s))).
  destruct (truthy tag); cbn [andb]; [| now split].
  destruct (array_includes (currentTags s) tag) eqn:Hin; cbn; [now split |].
  assert (Hnin : ~ In tag (currentTags s)).
  { rewrite <- array_includes_spec. congruence. }
  split.
  - apply NoDup_app; try assumption; [repeat constructor; intros [] |].
    intros x Hx [<- | []]. contradiction.
  - apply Forall_app. split; [assumption |].
    constructor; [apply toLowerCase_idem | constructor].
Qed.

(** C9: [addTag] takes the trimmed, lower-cased input; it leaves the buffer
    alone when that tag is empty or already there and appends it otherwise.
    A list of distinct lower-case tags stays one, so no two of its entries
    differ only by letter case; adding "Work" and then "work" to a new note
    gives the single tag "work". *)
Theorem addTag_no_case_variants (s : State) :
  let tag := toLowerCase (trim (tagInput s)) in
  (tag = EmptyString \/ In tag (currentTags s) -> addTag s = s)
  /\ (tag <> EmptyString -> ~ In tag (currentTags s) ->
      currentTags (addTag s) = (currentTags s ++ [tag])%list)
  /\ (tags_normal (currentTags s) ->
      tags_normal (currentTags (addTag s))
      /\ no_case_variants (currentTags (addTag s)))
  /\ currentTags
       (addTag (setTagInput "work" (addTag (setTagInput "Work" (startNewNote s)))))
     = ["work"].
Proof.
  intros tag.
  assert (Hex : currentTags
       (addTag (setTagInput "work" (addTag (setTagInput "Work" (startNewNote s)))))
     = ["work"]) by reflexivity.
  assert (Hkeep : tags_normal (currentTags s) ->
                  tags_normal (currentTags (addTag s))
                  /\ no_case_variants (currentTags (addTag s))).
  { intros Hn. apply addTag_tags_normal in Hn.
    split; [exact Hn | now apply tags_normal_no_case_variants]. }
  split; [| split; [| split; [exact Hkeep | exact Hex]]].
  - intros H. unfold addTag. fold tag.
    destruct H as [-> | H]; [reflexivity |].
    apply array_includes_spec in H. rewrite H. now rewrite andb_false_r.
  - intros Hne Hnin. unfold addTag. fold tag.
    destruct tag eqn:Et; [now destruct Hne |]. cbn [truthy andb].
    destruct (array_includes (currentTags s) (String a s0)) eqn:Hin;
      [| reflexivity].
    apply array_includes_spec in Hin. contradiction.
Qed.

Lemma addTag_no_case_variants_witness :
  tags_normal (currentTags (addTag (setTagInput " Work " (startNewNote initialState)))).
Proof.
  apply (addTag_no_case_variants (setTagInput " Work " (startNewNote initialState))).
  split; constructor.
Defined.

(** ** The JSON codec: what is parsed back from what is written *)

Module JsonFacts.
Import Json.

Lemma string_app_assoc (a b c : string) : (a ++ b) ++ c = a ++ (b ++ c).
Proof. induction a; simpl; congruence. Qed.

Lemma string_app_nil_r (a : string) : a ++ EmptyString = a.
Proof. induction a; simpl; congruence. Qed.

Lemma string_length_app (a b : string) :
  String.length (a ++ b) = (String.length a + String.length b)%nat.
Proof. induction a; simpl; congruence. Qed.

(** *** String literals *)

Lemma parse_chars_escape_char (c : ascii) (tail : string) :
  parse_chars (escape_char c ++ tail) = pcons c (parse_chars tail).
Proof. destruct c as [[] [] [] [] [] [] [] []]; reflexivity. Qed.

Lemma parse_chars_escape (s rest : string) :
  parse_chars (escape s ++ String dquote rest) = POk s rest.
Proof.
  induction s as [|c s IH]; [reflexivity |].
  cbn [escape]. rewrite string_app_assoc, parse_chars_escape_char, IH.
  reflexivity.
Qed.

Lemma parse_string_quote (s rest : string) :
  parse_string (quote s ++ rest) = POk s rest.
Proof.
  unfold quote. cbn [append parse_string].
  change (dquote =? dquote)%char with true. cbv iota.
  rewrite string_app_assoc. apply parse_chars_escape.
Qed.

(** *** Numbers *)

Lemma span_digits_uint (d : Decimal.uint) (rest : string) :
  match rest with String c _ => is_digit c = false | EmptyString => True end ->
  span_digits (NilEmpty.string_of_uint d ++ rest)
  = (NilEmpty.string_of_uint d, rest).
Proof.
  intros Hrest. induction d; cbn [NilEmpty.string_of_uint append span_digits];
    try (change (is_digit _) with true; cbv iota; now rewrite IHd).
  destruct rest as [|c rest]; [reflexivity |].
  cbn [span_digits]. now rewrite Hrest.
Qed.

Lemma nzhead_not_D0 (d u : Decimal.uint) : Decimal.nzhead d <> Decimal.D0 u.
Proof. induction d; simpl; try discriminate. exact IHd. Qed.

(** The digits of a natural number have no superfluous leading zero. *)
Lemma to_uint_head (n : N) :
  exists d ds, NilEmpty.string_of_uint (N.to_uint n) = String d ds
               /\ ((d =? "0")%char && truthy ds = false).
Proof.
  assert (E : N.to_uint n = Decimal.unorm (N.to_uint n)).
  { rewrite <- (DecimalN.Unsigned.of_to n) at 1. apply DecimalN.Unsigned.to_of. }
  rewrite E. unfold Decimal.unorm.
  pose proof (nzhead_not_D0 (N.to_uint n)) as Hnz.
  destruct (Decimal.nzhead (N.to_uint n)); simpl;
    try (eexists _, _; split; [reflexivity | reflexivity]).
  now destruct (Hnz u).
Qed.

Lemma parse_digits_to_uint (n : N) (rest : string) :
  ends_number rest ->
  parse_digits (NilEmpty.string_of_uint (N.to_uint n) ++ rest) = POk n rest.
Proof.
  intros Hrest. unfold parse_digits.
  rewrite span_digits_uint by (destruct rest; [exact I | apply Hrest]).
  destruct (to_uint_head n) as (d & ds & E & Hz).
  rewrite NilEmpty.usu, E, Hz.
  replace (starts_fraction_or_exponent rest) with false
    by (destruct rest; [reflexivity | symmetry; apply Hrest]).
  now rewrite DecimalN.Unsigned.of_to.
Qed.

Lemma uint_head_digit (d : Decimal.uint) :
  d <> Decimal.Nil ->
  exists c s, NilEmpty.string_of_uint d = String c s /\ is_digit c = true.
Proof.
  destruct d; intros H; try (eexists _, _; split; reflexivity).
  now destruct H.
Qed.

Lemma to_uint_head_digit (n : N) :
  exists c s, NilEmpty.string_of_uint (N.to_uint n) = String c s
              /\ is_digit c = true.
Proof.
  destruct (to_uint_head n) as (d & ds & E & _).
  apply uint_head_digit. intros H. rewrite H in E. discriminate.
Qed.

Lemma parse_number_to_string (z : Z) (rest : string) :
  ends_number rest ->
  parse_number (number_to_string z ++ rest) = POk (JNumber z) rest.
Proof.
  intros Hrest. unfold number_to_string.
  destruct (Z.ltb_spec z 0) as [Hneg | Hpos].
  - cbn [append parse_number]. change ("-" =? "-")%char with true. cbv iota.
    rewrite parse_digits_to_uint by assumption.
    cbn [pbind]. rewrite Z2N.id by lia. now rewrite Z.opp_involutive.
  - destruct (to_uint_head_digit (Z.to_N z)) as (c & s & E & Hc).
    assert (Hminus : (c =? "-")%char = false).
    { apply Ascii.eqb_neq. intros ->. discriminate. }
    pose proof (parse_digits_to_uint (Z.to_N z) rest Hrest) as P.
    rewrite E in *. cbn [append] in *.
    unfold parse_number. rewrite Hminus, P.
    cbn [pbind]. now rewrite Z2N.id by lia.
Qed.


(** *** Values *)

Lemma skip_ws_head (c : ascii) (s : string) :
  is_ws c = false -> skip_ws (String c s) = String c s.
Proof. intros H. cbn [skip_ws]. now rewrite H. Qed.

Lemma next_is_head (c d : ascii) (s : string) :
  is_ws d = false ->
  next_is c (String d s) = if (c =? d)%char then Some s else None.
Proof. intros H. unfold next_is. now rewrite skip_ws_head. Qed.

Lemma stringify_head (v : json) :
  exists c s, stringify v = String c s /\ starts_value c.
Proof.
  destruct v as [| [|] | z | s | l | m]; cbn [stringify];
    try (eexists _, _; split; [reflexivity | repeat split]).
  unfold number_to_string. destruct (z <? 0).
  - eexists _, _; split; [reflexivity | repeat split].
  - destruct (to_uint_head_digit (Z.to_N z)) as (c & s & -> & Hc).
    exists c, s. split; [reflexivity |].
    destruct c as [[] [] [] [] [] [] [] []]; try discriminate; repeat split.
Qed.

Lemma parse_value_number (fuel : nat) (c : ascii) (s : string) :
  (c =? "-")%char || is_digit c = true ->
  parse_value (S fuel) (String c s) = parse_number (String c s).
Proof.
  destruct c as [[] [] [] [] [] [] [] []]; intros H; try discriminate H;
    reflexivity.
Qed.

Lemma ends_number_after (c : ascii) (rest : string) :
  is_digit c = false -> starts_fraction_or_exponent (String c rest) = false ->
  ends_number (String c rest).
Proof. intros H1 H2. split; assumption. Qed.

Lemma parse_elements_join (l : list json) :
  Forall round_trips l -> l <> [] ->
  forall rest fuel,
    (2 * String.length (join (map stringify l)) + 2 <= fuel)%nat ->
    parse_elements fuel (join (map stringify l) ++ String "]" rest)
    = POk l rest.
Proof.
  induction 1 as [|x l Hx Hl IH]; intros Hne rest fuel Hfuel; [now destruct Hne |].
  destruct fuel as [|fuel]; [lia |].
  cbn [parse_elements]. destruct l as [|y l].
  - cbn [map join] in *.
    rewrite Hx by (try lia; now apply ends_number_after).
    reflexivity.
  - change (join (map stringify (x :: y :: l)))
      with (stringify x ++ String "," (join (map stringify (y :: l)))) in *.
    rewrite string_length_app in Hfuel. cbn [String.length] in Hfuel.
    rewrite string_app_assoc. cbn [append].
    rewrite Hx by (try lia; now apply ends_number_after).
    cbn [pbind]. unfold more_or_close.
    rewrite next_is_head by reflexivity. cbv iota beta.
    change ("," =? ",")%char with true. cbv iota.
    rewrite IH by (try discriminate; lia).
    reflexivity.
Qed.


Lemma member_app (k : string) (v : json) (t : string) :
  member (k, v) ++ t = quote k ++ String ":" (stringify v ++ t).
Proof. unfold member. cbn [fst snd]. now rewrite string_app_assoc. Qed.

Lemma parse_string_skip_quote (k t : string) :
  parse_string (skip_ws (quote k ++ t)) = POk k t.
Proof.
  unfold quote. cbn [append]. rewrite skip_ws_head by reflexivity.
  cbn [parse_string]. change (dquote =? dquote)%char with true. cbv iota.
  rewrite string_app_assoc. apply parse_chars_escape.
Qed.

Lemma member_length (k : string) (v : json) :
  (String.length (stringify v) < String.length (member (k, v)))%nat.
Proof.
  unfold member. cbn [fst snd]. rewrite string_length_app.
  cbn [String.length]. lia.
Qed.

Lemma parse_members_join (m : list (string * json)) :
  Forall (fun kv => round_trips (snd kv)) m -> m <> [] ->
  forall rest fuel,
    (2 * String.length (join (map member m)) + 2 <= fuel)%nat ->
    parse_members fuel (join (map member m) ++ String "}" rest) = POk m rest.
Proof.
  induction 1 as [|[k v] m Hx Hm IH]; intros Hne rest fuel Hfuel;
    [now destruct Hne |].
  destruct fuel as [|fuel]; [lia |].
  cbn [parse_members]. cbn [snd] in Hx.
  pose proof (member_length k v) as Hlen.
  destruct m as [|y m].
  - cbn [map join] in *.
    rewrite member_app, parse_string_skip_quote. cbn [pbind].
    unfold expect. rewrite next_is_head by reflexivity.
    change (":" =? ":")%char with true. cbv iota. cbn [pbind].
    rewrite Hx by (try lia; now apply ends_number_after).
    reflexivity.
  - change (join (map member ((k, v) :: y :: m)))
      with (member (k, v) ++ String "," (join (map member (y :: m)))) in *.
    rewrite string_length_app in Hfuel. cbn [String.length] in Hfuel.
    rewrite string_app_assoc, member_app, parse_string_skip_quote.
    cbn [pbind].
    unfold expect. rewrite next_is_head by reflexivity.
    change (":" =? ":")%char with true. cbv iota. cbn [pbind append].
    rewrite Hx by (try lia; now apply ends_number_after).
    cbn [pbind]. unfold more_or_close.
    rewrite next_is_head by reflexivity.
    change ("," =? ",")%char with true. cbv iota.
    rewrite IH by (try discriminate; lia).
    reflexivity.
Qed.

Lemma parse_value_array (fuel : nat) (s : string) :
  parse_value (S fuel) (String "[" s)
  = match next_is "]" s with
    | Some s'' => POk (JArray []) s''
    | None => pbind (parse_elements fuel s) (fun l rest => POk (JArray l) rest)
    end.
Proof. reflexivity. Qed.

Lemma parse_value_object (fuel : nat) (s : string) :
  parse_value (S fuel) (String "{" s)
  = match next_is "}" s with
    | Some s'' => POk (JObject []) s''
    | None => pbind (parse_members fuel s) (fun m rest => POk (JObject m) rest)
    end.
Proof. reflexivity. Qed.

Lemma parse_value_string (fuel : nat) (s : string) :
  parse_value (S fuel) (String dquote s)
  = pbind (parse_chars s) (fun str rest => POk (JString str) rest).
Proof. reflexivity. Qed.

Lemma next_is_close_value (close : ascii) (v : json) (t : string) :
  close = "]"%char \/ close = "}"%char ->
  next_is close (stringify v ++ t) = None.
Proof.
  intros Hc. destruct (stringify_head v) as (c & s & -> & Hws & Hb & Hbr).
  cbn [append]. rewrite next_is_head by assumption.
  destruct Hc as [-> | ->]; [now rewrite Hb | now rewrite Hbr].
Qed.

(** Every value is parsed back from its serialization, whatever follows
    it (a number must not be followed by what would continue it). *)
Theorem parse_value_stringify (v : json) : round_trips v.
Proof.
  induction v as [| b | z | s | l IH | m IH] using json_ind;
    intros rest fuel Hfuel Hrest;
    (destruct fuel as [|fuel]; [lia |]).
  - reflexivity.
  - destruct b; reflexivity.
  - cbn [stringify].
    destruct (stringify_head (JNumber z)) as (c & s & E & _).
    cbn [stringify] in E.
    pose proof (parse_number_to_string z rest Hrest) as P.
    rewrite E in *. cbn [append] in *.
    rewrite parse_value_number; [exact P |].
    revert E. unfold number_to_string. destruct (z <? 0).
    + intros [= <- _]. reflexivity.
    + intros E. destruct (to_uint_head_digit (Z.to_N z)) as (c' & s' & E' & Hd).
      rewrite E' in E. injection E as <- _. rewrite Hd. apply orb_true_r.
  - cbn [stringify]. unfold quote. cbn [append].
    rewrite parse_value_string, string_app_assoc. cbn [append].
    now rewrite parse_chars_escape.
  - cbn [stringify append] in *. rewrite parse_value_array.
    cbn [String.length] in Hfuel. rewrite string_length_app in Hfuel.
    cbn [String.length] in Hfuel.
    rewrite string_app_assoc. cbn [append].
    destruct l as [|x l]; [reflexivity |].
    replace (next_is "]" _) with (@None string).
    + rewrite parse_elements_join by (try assumption; try discriminate; lia).
      reflexivity.
    + symmetry. destruct l; cbn [map join].
      * apply next_is_close_value. now left.
      * rewrite string_app_assoc. apply next_is_close_value. now left.
  - cbn [stringify append] in *. rewrite parse_value_object.
    cbn [String.length] in Hfuel. rewrite string_length_app in Hfuel.
    cbn [String.length] in Hfuel.
    rewrite string_app_assoc. cbn [append].
    destruct m as [|[k v] m]; [reflexivity |].
    replace (next_is "}" _) with (@None string).
    + rewrite (parse_members_join ((k, v) :: m))
        by (try assumption; try discriminate; unfold member; lia).
      reflexivity.
    + symmetry. assert (Hm : forall t, next_is "}" (member (k, v) ++ t) = None).
      { intros t. unfold member, quote. reflexivity. }
      destruct m; cbn [map join].
      * apply Hm.
      * rewrite string_app_assoc. apply Hm.
Qed.

(** [JSON.parse(JSON.stringify(v))] is [v]. *)
Theorem parse_stringify (v : json) : parse (stringify v) = Value v.
Proof.
  unfold parse.
  pose proof (parse_value_stringify v EmptyString (parse_fuel (stringify v))) as H.
  rewrite string_app_nil_r in H.
  rewrite H; [reflexivity | unfold parse_fuel; lia | exact I].
Qed.

End JsonFacts.

(** *** The parser's fuel suffices *)

Module JsonFuel.
Import Json.

Ltac fuel_case :=
  split; [intros ? ? E; try discriminate E | intros Hf; try discriminate].


Lemma skip_ws_length (s : string) :
  (String.length (skip_ws s) <= String.length s)%nat.
Proof.
  induction s as [|c s IH]; cbn [skip_ws]; [lia |].
  destruct (is_ws c); cbn [String.length]; lia.
Qed.

Lemma next_is_length (c : ascii) (s s' : string) :
  next_is c s = Some s' -> (String.length s' < String.length s)%nat.
Proof.
  unfold next_is. pose proof (skip_ws_length s) as H.
  destruct (skip_ws s) as [|d t]; [discriminate |].
  destruct (c =? d)%char; [| discriminate].
  intros [= <-]. cbn [String.length] in H. lia.
Qed.

Lemma pcons_ok (c : ascii) (r : presult string) (a rest : string) :
  pcons c r = POk a rest -> exists a', r = POk a' rest.
Proof. destruct r; try discriminate. intros [= _ <-]. now eexists. Qed.

Lemma parse_chars_length (s a rest : string) :
  parse_chars s = POk a rest -> (String.length rest < String.length s)%nat.
Proof.
  remember (String.length s) as n eqn:En.
  assert (Hn : (String.length s <= n)%nat) by lia. clear En.
  revert s a rest Hn. induction n as [|n IH]; intros s a rest Hn.
  - destruct s; [discriminate | cbn [String.length] in Hn; lia].
  - destruct s as [|c s]; [discriminate |].
    cbn [String.length] in Hn. cbn [parse_chars].
    destruct (c =? dquote)%char.
    { intros [= _ <-]. cbn [String.length]. lia. }
    destruct (c =? backslash)%char.
    + destruct s as [|e s]; [discriminate |]. cbn [String.length] in *.
      destruct (e =? "u")%char.
      * destruct s as [|h1 [|h2 [|h3 [|h4 s]]]]; try discriminate.
        cbn [String.length] in *.
        destruct (hex4 h1 h2 h3 h4) as [k|]; [| discriminate].
        destruct (k <? 256)%N; [| discriminate].
        intros H. apply pcons_ok in H as [a' H]. apply IH in H; lia.
      * destruct (unescape e); [| discriminate].
        intros H. apply pcons_ok in H as [a' H]. apply IH in H; lia.
    + destruct (code c <? 32)%N; [discriminate |].
      intros H. apply pcons_ok in H as [a' H]. apply IH in H; [| lia].
      cbn [String.length]. lia.
Qed.

Lemma parse_string_length (s a rest : string) :
  parse_string s = POk a rest -> (String.length rest < String.length s)%nat.
Proof.
  destruct s as [|c s]; [discriminate |]. cbn [parse_string String.length].
  destruct (c =? dquote)%char; [| discriminate].
  intros H. apply parse_chars_length in H. lia.
Qed.

Lemma span_digits_length (s ds rest : string) :
  span_digits s = (ds, rest) ->
  (String.length ds + String.length rest = String.length s)%nat.
Proof.
  revert ds rest. induction s as [|c s IH]; intros ds rest; cbn [span_digits].
  - intros [= <- <-]. reflexivity.
  - destruct (is_digit c).
    + destruct (span_digits s) as [ds' rest']. intros [= <- <-].
      cbn [String.length]. rewrite <- (IH ds' rest' eq_refl). lia.
    + intros [= <- <-]. reflexivity.
Qed.

Lemma parse_digits_length (s : string) (n : N) (rest : string) :
  parse_digits s = POk n rest -> (String.length rest < String.length s)%nat.
Proof.
  unfold parse_digits. destruct (span_digits s) as [ds r] eqn:E.
  apply span_digits_length in E.
  destruct ds as [|d ds]; [discriminate |].
  destruct ((d =? "0")%char && truthy ds); [discriminate |].
  destruct (starts_fraction_or_exponent r); [discriminate |].
  destruct (NilEmpty.uint_of_string (String d ds)); [| discriminate].
  intros [= _ <-]. cbn [String.length] in E. lia.
Qed.

Lemma parse_number_length (s : string) (v : json) (rest : string) :
  parse_number s = POk v rest -> (String.length rest < String.length s)%nat.
Proof.
  unfold parse_number. destruct s as [|c s]; [discriminate |].
  destruct (c =? "-")%char.
  - destruct (parse_digits s) as [n r| | |] eqn:E; try discriminate.
    cbn [pbind]. intros [= _ <-]. apply parse_digits_length in E.
    cbn [String.length]. lia.
  - destruct (parse_digits (String c s)) as [n r| | |] eqn:E; try discriminate.
    cbn [pbind]. intros [= _ <-]. now apply parse_digits_length in E.
Qed.

Lemma strip_prefix_length (lit s rest : string) :
  strip_prefix lit s = Some rest ->
  (String.length rest + String.length lit = String.length s)%nat.
Proof.
  revert s. induction lit as [|a lit IH]; intros s; cbn [strip_prefix].
  - destruct s; intros [= <-]; cbn [String.length]; lia.
  - destruct s as [|b s]; [discriminate |].
    destruct (a =? b)%char; [| discriminate].
    intros H. apply IH in H. cbn [String.length]. lia.
Qed.

Lemma parse_literal_length (lit : string) (v : json) (s : string)
      (v' : json) (rest : string) :
  lit <> EmptyString ->
  parse_literal lit v s = POk v' rest ->
  (String.length rest < String.length s)%nat.
Proof.
  intros Hlit. unfold parse_literal.
  destruct (strip_prefix lit s) as [r|] eqn:E; [| discriminate].
  intros [= _ <-]. apply strip_prefix_length in E.
  destruct lit; [now destruct Hlit | cbn [String.length] in E; lia].
Qed.

Lemma parse_number_fuel (s : string) : parse_number s <> POutOfFuel.
Proof.
  unfold parse_number, parse_digits. destruct s as [|c s]; [discriminate |].
  destruct (c =? "-")%char.
  - destruct (span_digits s) as [[|d ds] r]; [discriminate |].
    destruct ((d =? "0")%char && truthy ds); [discriminate |].
    destruct (starts_fraction_or_exponent r); [discriminate |].
    destruct (NilEmpty.uint_of_string (String d ds)); discriminate.
  - destruct (span_digits (String c s)) as [[|d ds] r]; [discriminate |].
    destruct ((d =? "0")%char && truthy ds); [discriminate |].
    destruct (starts_fraction_or_exponent r); [discriminate |].
    destruct (NilEmpty.uint_of_string (String d ds)); discriminate.
Qed.

Lemma parse_chars_fuel (s : string) : parse_chars s <> POutOfFuel.
Proof.
  remember (String.length s) as n eqn:En.
  assert (Hn : (String.length s <= n)%nat) by lia. clear En.
  revert s Hn. induction n as [|n IH]; intros s Hn.
  - destruct s; [discriminate | cbn [String.length] in Hn; lia].
  - destruct s as [|c s]; [discriminate |].
    cbn [String.length] in Hn. cbn [parse_chars].
    assert (Hp : forall ch t, (String.length t <= n)%nat ->
                   pcons ch (parse_chars t) <> POutOfFuel).
    { intros ch t Ht. specialize (IH t Ht).
      destruct (parse_chars t); simpl; congruence. }
    destruct (c =? dquote)%char; [discriminate |].
    destruct (c =? backslash)%char.
    + destruct s as [|e s]; [discriminate |]. cbn [String.length] in *.
      destruct (e =? "u")%char.
      * destruct s as [|h1 [|h2 [|h3 [|h4 s]]]]; try discriminate.
        cbn [String.length] in *.
        destruct (hex4 h1 h2 h3 h4) as [k|]; [| discriminate].
        destruct (k <? 256)%N; [| discriminate]. apply Hp. lia.
      * destruct (unescape e); [| discriminate]. apply Hp. lia.
    + destruct (code c <? 32)%N; [discriminate |]. apply Hp. lia.
Qed.

Lemma parse_literal_fuel lit v s : parse_literal lit v s <> POutOfFuel.
Proof. unfold parse_literal. destruct (strip_prefix lit s); discriminate. Qed.


Lemma parse_fuel_enough (fuel : nat) :
  (forall s, consumes (parse_value fuel s) s
             /\ ((2 * String.length s + 1 <= fuel)%nat ->
                 parse_value fuel s <> POutOfFuel))
  /\ (forall s, consumes (parse_elements fuel s) s
                /\ ((2 * String.length s + 2 <= fuel)%nat ->
                    parse_elements fuel s <> POutOfFuel))
  /\ (forall s, consumes (parse_members fuel s) s
                /\ ((2 * String.length s + 2 <= fuel)%nat ->
                    parse_members fuel s <> POutOfFuel)).
Proof.
  unfold consumes.
  induction fuel as [|fuel (IHv & IHe & IHm)].
  { repeat split; try discriminate; lia. }
  split; [| split]; intros s.
  - cbn [parse_value]. pose proof (skip_ws_length s) as Hs.
    destruct (skip_ws s) as [|c s'] eqn:Es; [fuel_case |].
    cbn [String.length] in Hs.
    destruct (c =? "[")%char.
    { destruct (next_is "]" s') as [s''|] eqn:En.
      - fuel_case. injection E as _ <-. apply next_is_length in En. lia.
      - destruct (IHe s') as [Le Fe].
        destruct (parse_elements fuel s') as [l r| | |]; cbn [pbind]; fuel_case.
        + injection E as _ <-. specialize (Le _ _ eq_refl). lia.
        + exfalso; apply Fe; [lia | reflexivity]. }
    destruct (c =? "{")%char.
    { destruct (next_is "}" s') as [s''|] eqn:En.
      - fuel_case. injection E as _ <-. apply next_is_length in En. lia.
      - destruct (IHm s') as [Lm Fm].
        destruct (parse_members fuel s') as [l r| | |]; cbn [pbind]; fuel_case.
        + injection E as _ <-. specialize (Lm _ _ eq_refl). lia.
        + exfalso; apply Fm; [lia | reflexivity]. }
    destruct (c =? dquote)%char.
    { pose proof (parse_chars_fuel s') as Fc.
      destruct (parse_chars s') as [str r| | |] eqn:Ec; cbn [pbind]; fuel_case.
      - injection E as _ <-. apply parse_chars_length in Ec. lia.
      - now destruct Fc. }
    destruct ((c =? "-")%char || is_digit c).
    { fuel_case.
      - apply parse_number_length in E. cbn [String.length] in E. lia.
      - apply parse_number_fuel. }
    destruct (c =? "t")%char.
    { fuel_case.
      - apply parse_literal_length in E; [| discriminate].
        cbn [String.length] in E. lia.
      - apply parse_literal_fuel. }
    destruct (c =? "f")%char.
    { fuel_case.
      - apply parse_literal_length in E; [| discriminate].
        cbn [String.length] in E. lia.
      - apply parse_literal_fuel. }
    destruct (c =? "n")%char.
    { fuel_case.
      - apply parse_literal_length in E; [| discriminate].
        cbn [String.length] in E. lia.
      - apply parse_literal_fuel. }
    fuel_case.
  - cbn [parse_elements]. destruct (IHv s) as [Lv Fv].
    destruct (parse_value fuel s) as [v r| | |]; cbn [pbind];
      try (fuel_case; (exfalso; apply Fv; [lia | reflexivity])).
    specialize (Lv _ _ eq_refl). unfold more_or_close.
    destruct (next_is "," r) as [r'|] eqn:En.
    + apply next_is_length in En. destruct (IHe r') as [Le Fe].
      destruct (parse_elements fuel r') as [l r2| | |]; cbn [pbind]; fuel_case.
      * injection E as _ <-. specialize (Le _ _ eq_refl). lia.
      * exfalso; apply Fe; [lia | reflexivity].
    + destruct (next_is "]" r) as [r'|] eqn:En2; fuel_case.
      injection E as _ <-. apply next_is_length in En2. lia.
  - cbn [parse_members]. pose proof (skip_ws_length s) as Hs.
    destruct (parse_string (skip_ws s)) as [k r1| | |] eqn:Ek; cbn [pbind];
      try (fuel_case; fail).
    + apply parse_string_length in Ek. unfold expect.
      destruct (next_is ":" r1) as [r2|] eqn:En; cbn [pbind]; [| fuel_case].
      apply next_is_length in En. destruct (IHv r2) as [Lv Fv].
      destruct (parse_value fuel r2) as [v r3| | |]; cbn [pbind];
        try (fuel_case; (exfalso; apply Fv; [lia | reflexivity])).
      specialize (Lv _ _ eq_refl). unfold more_or_close.
      destruct (next_is "," r3) as [r4|] eqn:En3.
      * apply next_is_length in En3. destruct (IHm r4) as [Lm Fm].
        destruct (parse_members fuel r4) as [m r5| | |]; cbn [pbind]; fuel_case.
        -- injection E as _ <-. specialize (Lm _ _ eq_refl). lia.
        -- exfalso; apply Fm; [lia | reflexivity].
      * destruct (next_is "}" r3) as [r4|] eqn:En4; fuel_case.
        injection E as _ <-. apply next_is_length in En4. lia.
    + fuel_case. unfold parse_string in Ek.
      destruct (skip_ws s) as [|c t]; [discriminate |].
      destruct (c =? dquote)%char; [| discriminate].
      now apply parse_chars_fuel in Ek.
Qed.

(** [JSON.parse] always answers: it returns a value, throws, or meets a
    literal the model leaves out. *)
Theorem parse_total (s : string) : parse s <> OutOfFuel.
Proof.
  unfold parse.
  destruct (parse_fuel_enough (parse_fuel s)) as (Hv & _ & _).
  destruct (Hv s) as [_ F].
  destruct (parse_value (parse_fuel s) s) as [v r| | |].
  - destruct (skip_ws r); discriminate.
  - discriminate.
  - discriminate.
  - exfalso. apply F; [unfold parse_fuel; lia | reflexivity].
Qed.

End JsonFuel.

(** ** Storage: loading and persisting *)

Import JsonFacts.

Lemma decode_strings_encode (ts : list string) :
  decode_strings (map Json.JString ts) = Some ts.
Proof. induction ts as [|t ts IH]; simpl; [reflexivity | now rewrite IH]. Qed.

Lemma decode_note_encode (n : Note) : decode_note (encode_note n) = Some n.
Proof. destruct n. simpl. now rewrite decode_strings_encode. Qed.

Lemma decode_notes_encode (ns : list Note) :
  decode_notes (encode_notes ns) = Some ns.
Proof.
  unfold encode_notes, decode_notes.
  induction ns as [|n ns IH]; [reflexivity |].
  cbn [map decode_list]. now rewrite decode_note_encode, IH.
Qed.

(** The specification's round trip: what [JSON_stringify] writes, [load]
    reads back field for field. *)
Lemma load_stringify (ns : list Note) : load (Some (JSON_stringify ns)) = Done ns.
Proof.
  unfold load, JSON_stringify.
  rewrite parse_stringify, decode_notes_encode. reflexivity.
Qed.

(** C1, as the specification states it, fails: the stored text [{] is not
    JSON, and loading it does not give the empty collection. *)
Lemma load_unparseable_counterexample :
  ~ (forall slot : option string,
        (slot = None
         \/ exists stored, slot = Some stored
                           /\ Json.parse stored = Json.SyntaxError) ->
        load slot = Done []).
Proof.
  intros H. specialize (H (Some "{")).
  assert (E : load (Some "{") = Throws) by reflexivity.
  rewrite E in H. discriminate H.
  right. exists "{". split; reflexivity.
Qed.

(** C1, amended: an absent or empty stored value gives the empty collection;
    a non-empty text that [JSON.parse] rejects makes the exception escape;
    a text that parses to a collection gives that collection, as does in
    particular every text written by [JSON_stringify]. *)
Theorem load_spec (slot : option string) :
  (slot = None \/ slot = Some EmptyString -> load slot = Done [])
  /\ (forall stored,
        slot = Some stored -> stored <> EmptyString ->
        Json.parse stored = Json.SyntaxError -> load slot = Throws)
  /\ (forall stored ns,
        slot = Some stored ->
        Json.parse stored = Json.Value (encode_notes ns) -> load slot = Done ns)
  /\ (forall ns, slot = Some (JSON_stringify ns) -> load slot = Done ns).
Proof.
  repeat split.
  - intros [-> | ->]; reflexivity.
  - intros stored -> Hne Hp. unfold load.
    destruct stored; [now destruct Hne |]. cbn [truthy]. now rewrite Hp.
  - intros stored ns -> Hp. unfold load.
    destruct stored; [discriminate Hp |]. cbn [truthy].
    now rewrite Hp, decode_notes_encode.
  - intros ns ->. apply load_stringify.
Qed.

Lemma load_spec_witness : load (Some "{") = Throws.
Proof.
  apply (proj1 (proj2 (load_spec (Some "{"))) "{").
  - reflexivity.
  - discriminate.
  - reflexivity.
Defined.

Lemma persist_nonempty (ns : list Note) (slot : option string) :
  ns <> [] -> persist ns slot = Some (JSON_stringify ns).
Proof. destruct ns; [intros H; now destruct H | reflexivity]. Qed.

Lemma saveNote_storage w now uuid :
  savable (state w) ->
  localStorage (saveNote now uuid w)
  = persist (notes (state (saveNote now uuid w))) (localStorage w).
Proof.
  intros H. rewrite saveNote_notes by assumption. unfold saveNote.
  destruct H as [H | H]; rewrite H; simpl; [| rewrite andb_false_r]; reflexivity.
Qed.

(** C5: after an add, an update or a removal, a non-empty resulting
    collection is what the storage slot holds, serialized in full (and
    [load] reads it back); an empty one is not written and the slot keeps
    its value. *)
Theorem persist_after_mutation (w w' : World) :
  mutation w w' ->
  (notes (state w') <> [] ->
     localStorage w' = Some (JSON_stringify (notes (state w')))
     /\ load (localStorage w') = Done (notes (state w')))
  /\ (notes (state w') = [] -> localStorage w' = localStorage w).
Proof.
  intros Hm.
  assert (E : localStorage w' = persist (notes (state w')) (localStorage w)).
  { destruct Hm; try (now apply saveNote_storage); reflexivity. }
  split.
  - intros Hne. rewrite E, persist_nonempty by assumption.
    split; [reflexivity | apply load_stringify].
  - intros Hnil. rewrite E, Hnil. reflexivity.
Qed.

Lemma persist_after_mutation_witness :
  localStorage (saveNote 300 "C" world_new)
  = Some (JSON_stringify (notes (state (saveNote 300 "C" world_new))))
  /\ load (localStorage (saveNote 300 "C" world_new))
     = Done (notes (state (saveNote 300 "C" world_new))).
Proof.
  apply (persist_after_mutation world_new (saveNote 300 "C" world_new)).
  - apply mut_add; [reflexivity | left; reflexivity].
  - discriminate.
Defined.

(** ** Deleting down to the empty collection *)

Lemma deleteAll_empty (ids : list string) (w : World) :
  notes (state w) = [] ->
  notes (state (deleteAll ids w)) = []
  /\ localStorage (deleteAll ids w) = localStorage w.
Proof.
  revert w. induction ids as [|id ids IH]; intros w Hnil; [now split |].
  cbn [deleteAll fold_left].
  assert (H : notes (state (deleteNote id true w)) = []
              /\ localStorage (deleteNote id true w) = localStorage w).
  { simpl. rewrite Hnil. now split. }
  destruct H as [H1 H2]. destruct (IH _ H1) as [H3 H4].
  unfold deleteAll in *. split; congruence.
Qed.

Lemma filter_other_ids_nil (id : string) (ns : list Note) :
  filter (fun n => negb (String.eqb (Note.id n) id)) ns = [] ->
  forall n, In n ns -> Note.id n = id.
Proof.
  intros E n Hn.
  destruct (String.eqb_spec (Note.id n) id) as [H | H]; [exact H |].
  assert (Hin : In n (filter (fun n => negb (String.eqb (Note.id n) id)) ns)).
  { apply filter_In. split; [exact Hn |].
    now destruct (String.eqb_spec (Note.id n) id). }
  rewrite E in Hin. destruct Hin.
Qed.

(** C10: when a persisted non-empty collection is emptied by deletions, the
    storage slot still holds the previous non-empty collection, that is the
    collection [prev] as it was just before the deletion that emptied it,
    all of whose notes that deletion removed; loading (or mounting the
    component again) brings exactly [prev] back. *)
Theorem deleted_notes_reappear (ids : list string) (w : World) :
  notes (state w) <> [] ->
  localStorage w = Some (JSON_stringify (notes (state w))) ->
  notes (state (deleteAll ids w)) = [] ->
  exists before id after prev w2,
    ids = (before ++ id :: after)%list
    /\ prev = notes (state (deleteAll before w))
    /\ notes (state (deleteNote id true (deleteAll before w))) = []
    /\ (forall n, In n prev -> Note.id n = id)
    /\ prev <> []
    /\ incl prev (notes (state w))
    /\ localStorage (deleteAll ids w) = Some (JSON_stringify prev)
    /\ load (localStorage (deleteAll ids w)) = Done prev
    /\ mount (localStorage (deleteAll ids w)) = Done w2
    /\ notes (state w2) = prev.
Proof.
  revert w. induction ids as [|id ids IH]; intros w Hne Hst Hnil.
  - now destruct Hne.
  - cbn [deleteAll fold_left] in Hnil |- *.
    fold (deleteAll ids (deleteNote id true w)) in Hnil |- *.
    set (w1 := deleteNote id true w) in *.
    destruct (notes (state w1)) as [|n ns] eqn:E1.
    + destruct (deleteAll_empty ids w1 E1) as [_ Hs].
      assert (Hs1 : localStorage w1 = localStorage w).
      { subst w1. simpl in *. now rewrite E1. }
      exists [], id, ids, (notes (state w)),
             (setNotes (notes (state w)) (mkWorld initialState (localStorage w))).
      rewrite Hs, Hs1, Hst.
      split; [reflexivity |]. split; [reflexivity |].
      split; [exact E1 |].
      split; [apply (filter_other_ids_nil id); exact E1 |].
      split; [assumption |]. split; [apply incl_refl |].
      split; [reflexivity |]. split; [apply load_stringify |].
      split; [| reflexivity].
      unfold mount. rewrite load_stringify, <- Hst. reflexivity.
    + assert (Hne1 : notes (state w1) <> []) by (rewrite E1; discriminate).
      assert (Hst1 : localStorage w1 = Some (JSON_stringify (notes (state w1)))).
      { subst w1. simpl in *. now rewrite persist_nonempty. }
      destruct (IH w1 Hne1 Hst1 Hnil)
        as (before & id' & after & prev & w2 & Hids & Hprev & Hempty & Hall
            & Hpne & Hincl & Hrest).
      exists (id :: before), id', after, prev, w2.
      split; [cbn; now rewrite Hids |].
      split; [exact Hprev |]. split; [exact Hempty |]. split; [exact Hall |].
      split; [exact Hpne |]. split; [| exact Hrest].
      intros x Hx. apply Hincl in Hx. subst w1. simpl in Hx.
      now apply filter_In in Hx.
Qed.

Lemma deleted_notes_reappear_witness :
  exists before id after prev w2,
    ["B"; "A"] = (before ++ id :: after)%list
    /\ prev = notes (state (deleteAll before world_AB))
    /\ notes (state (deleteNote id true (deleteAll before world_AB))) = []
    /\ (forall n, In n prev -> Note.id n = id)
    /\ prev <> []
    /\ incl prev (notes (state world_AB))
    /\ localStorage (deleteAll ["B"; "A"] world_AB) = Some (JSON_stringify prev)
    /\ load (localStorage (deleteAll ["B"; "A"] world_AB)) = Done prev
    /\ mount (localStorage (deleteAll ["B"; "A"] world_AB)) = Done w2
    /\ notes (state w2) = prev.
Proof.
  apply (deleted_notes_reappear ["B"; "A"] world_AB).
  - discriminate.
  - reflexivity.
  - reflexivity.
Defined.

(** On the sample: after deleting B and then A the slot holds [A], the last
    note deleted, and a reload shows it again. *)
Example reload_after_deleting_all :
  load (localStorage (deleteAll ["B"; "A"] world_AB)) = Done [note_A].
Proof. reflexivity. Qed.

(** ** Invariants of a session *)

Lemma filteredNotes_In query tagFilter ns n :
  In n (filteredNotes query tagFilter ns) -> In n ns.
Proof.
  unfold filteredNotes. intros H.
  eapply Permutation_in in H; [| symmetry; apply array_sort_perm].
  now apply filter_In in H.
Qed.

Lemma tags_normal_nil : tags_normal [].
Proof. split; constructor. Qed.

Lemma tags_normal_filter (f : string -> bool) (ts : list string) :
  tags_normal ts -> tags_normal (filter f ts).
Proof.
  intros [Hnd Hlow]. split; [now apply NoDup_filter |].
  rewrite Forall_forall in *. intros t Ht. apply filter_In in Ht.
  now apply Hlow.
Qed.

Lemma saved_notes_tags now uuid s :
  Forall (fun n => tags_normal (Note.tags n)) (notes s) ->
  tags_normal (currentTags s) ->
  Forall (fun n => tags_normal (Note.tags n)) (saved_notes now uuid s).
Proof.
  intros Hns Hcur. unfold saved_notes. destruct (currentNote s) as [cur|].
  - rewrite Forall_map. eapply Forall_impl; [| exact Hns].
    intros n Hn. now destruct (String.eqb (Note.id n) (Note.id cur)).
  - now constructor.
Qed.

(** Every event keeps the tag lists normal. *)
Lemma step_tags_inv (w w' : World) : step w w' -> tags_inv w -> tags_inv w'.
Proof.
  intros Hstep [Hns Hcur].
  destruct Hstep; unfold tags_inv; cbn;
    try (split; [assumption | first [assumption | apply tags_normal_nil]]).
  - split; [assumption |].
    rewrite Forall_forall in Hns. apply Hns.
    eapply filteredNotes_In. eassumption.
  - unfold saveNote.
    destruct (negb (truthy (trim (title (state w))))
              && negb (truthy (trim (content (state w))))); cbn.
    + now split.
    + split; [now apply saved_notes_tags | apply tags_normal_nil].
  - destruct confirmed; cbn; [| now split].
    split; [| assumption].
    rewrite Forall_forall in *. intros n Hn. apply filter_In in Hn.
    now apply Hns.
  - split; [now rewrite addTag_notes | now apply addTag_tags_normal].
  - split; [assumption | now apply tags_normal_filter].
Qed.

(** X14: in a session whose loaded notes carry normal tag lists (in
    particular one started on an empty slot), no note ever has two tags that
    differ only by letter case. *)
Theorem reachable_no_case_variants (slot : option string) (w : World) :
  reachable slot w ->
  (forall ns, load slot = Done ns ->
              Forall (fun n => tags_normal (Note.tags n)) ns) ->
  forall n, In n (notes (state w)) -> no_case_variants (Note.tags n).
Proof.
  intros Hreach Hload.
  assert (Hinv : tags_inv w).
  { induction Hreach as [w Hm | w w' _ IH Hstep].
    - unfold mount in Hm. destruct (load slot) as [ns| |]; try discriminate.
      injection Hm as <-. split; cbn; [now apply Hload | apply tags_normal_nil].
    - eapply step_tags_inv; eassumption. }
  intros n Hn. apply tags_normal_no_case_variants.
  destruct Hinv as [Hns _]. rewrite Forall_forall in Hns. now apply Hns.
Qed.

Lemma setNotes_synced ns w : synced (setNotes ns w).
Proof. unfold synced. cbn. intros H. now apply persist_nonempty. Qed.

(** X15: throughout a session a non-empty collection is the one the
    storage slot holds. *)
Theorem reachable_synced (slot : option string) (w : World) :
  reachable slot w -> synced w.
Proof.
  induction 1 as [w Hm | w w' _ IH Hstep].
  - unfold mount in Hm. destruct (load slot) as [ns| |]; try discriminate.
    injection Hm as <-. apply setNotes_synced.
  - destruct Hstep; try exact IH.
    + unfold saveNote.
      destruct (negb (truthy (trim (title (state w))))
                && negb (truthy (trim (content (state w))))); [exact IH |].
      unfold synced. cbn. intros H. now apply persist_nonempty.
    + destruct confirmed; [apply setNotes_synced | exact IH].
    + unfold synced, on_state. cbn. rewrite addTag_notes. exact IH.
Qed.

(** ** The derived tag list *)

Lemma ascii_compare_le_trans (a b c : ascii) :
  Ascii.compare a b <> Gt -> Ascii.compare b c <> Gt -> Ascii.compare a c <> Gt.
Proof.
  unfold Ascii.compare. rewrite !N.compare_gt_iff. lia.
Qed.

Lemma string_compare_refl (a : string) : String.compare a a = Eq.
Proof.
  induction a as [|c a IH]; [reflexivity |]. cbn [String.compare].
  unfold Ascii.compare. now rewrite N.compare_refl.
Qed.

Lemma string_compare_le_trans (a b c : string) :
  String.compare a b <> Gt -> String.compare b c <> Gt ->
  String.compare a c <> Gt.
Proof.
  revert b c. induction a as [|x a IH]; intros [|y b] [|z c];
    cbn [String.compare]; try congruence.
  unfold Ascii.compare.
  destruct (N.compare_spec (N_of_ascii x) (N_of_ascii y)) as [Exy | Lxy | Gxy],
           (N.compare_spec (N_of_ascii y) (N_of_ascii z)) as [Eyz | Lyz | Gyz],
           (N.compare_spec (N_of_ascii x) (N_of_ascii z)) as [Exz | Lxz | Gxz];
    try congruence; try lia.
  apply IH.
Qed.

Lemma default_cmp_le (a b : string) :
  default_cmp a b <= 0 <-> String.compare a b <> Gt.
Proof.
  unfold default_cmp. destruct (String.compare a b); split; intros H;
    try lia; try discriminate. now destruct H.
Qed.

Section ArraySortOrder.
Context {A : Type} (cmp : A -> A -> Z).
Hypothesis cmp_total : forall a b, 0 < cmp a b -> cmp b a <= 0.
Hypothesis cmp_trans : forall a b c, cmp a b <= 0 -> cmp b c <= 0 -> cmp a c <= 0.

Let before (a b : A) : Prop := cmp a b <= 0.

Lemma sort_insert_ordered x l :
  StronglySorted before l -> StronglySorted before (sort_insert cmp x l).
Proof.
  induction 1 as [|y l Hl IH Hy]; simpl.
  - repeat constructor.
  - destruct (Z.leb_spec (cmp x y) 0) as [Hle | Hgt].
    + constructor; [now constructor |].
      constructor; [exact Hle |].
      eapply Forall_impl; [| exact Hy]. intros z Hz. now apply (cmp_trans x y z).
    + constructor; [assumption |].
      eapply Permutation_Forall; [apply sort_insert_perm |].
      constructor; [now apply cmp_total | assumption].
Qed.

Lemma array_sort_ordered l : StronglySorted before (array_sort cmp l).
Proof.
  induction l as [|x l IH]; simpl; [constructor | now apply sort_insert_ordered].
Qed.
End ArraySortOrder.

Lemma set_add_In (acc : list string) (tag t : string) :
  In t (set_add acc tag) <-> In t acc \/ t = tag.
Proof.
  unfold set_add. destruct (array_includes acc tag) eqn:E.
  - apply array_includes_spec in E. split; [now left |].
    intros [H | ->]; assumption.
  - rewrite in_app_iff. simpl. intuition congruence.
Qed.

Lemma set_add_NoDup (acc : list string) (tag : string) :
  NoDup acc -> NoDup (set_add acc tag).
Proof.
  intros H. unfold set_add. destruct (array_includes acc tag) eqn:E; [assumption |].
  apply NoDup_app; [assumption | repeat constructor; intros [] |].
  intros x Hx [<- | []]. apply array_includes_spec in Hx. congruence.
Qed.

Lemma fold_set_add_In (ts acc : list string) (t : string) :
  In t (fold_left set_add ts acc) <-> In t acc \/ In t ts.
Proof.
  revert acc. induction ts as [|x ts IH]; intros acc; simpl.
  - tauto.
  - rewrite IH, set_add_In. intuition congruence.
Qed.

Lemma fold_set_add_NoDup (ts acc : list string) :
  NoDup acc -> NoDup (fold_left set_add ts acc).
Proof.
  revert acc. induction ts as [|x ts IH]; intros acc H; simpl; [assumption |].
  apply IH. now apply set_add_NoDup.
Qed.

Lemma fold_tags_In (ns : list Note) (acc : list string) (t : string) :
  In t (fold_left (fun acc note => fold_left set_add (Note.tags note) acc) ns acc)
  <-> In t acc \/ exists n, In n ns /\ In t (Note.tags n).
Proof.
  revert acc. induction ns as [|n ns IH]; intros acc; simpl.
  - split; [now left | intros [H | (n & [] & _)]; assumption].
  - rewrite IH, fold_set_add_In. split.
    + intros [[H | H] | (m & Hm & Ht)]; [now left | right | right].
      * exists n. split; [now left | assumption].
      * exists m. split; [now right | assumption].
    + intros [H | (m & [<- | Hm] & Ht)]; [now left; left | now left; right |].
      right. now exists m.
Qed.

Lemma fold_tags_NoDup (ns : list Note) (acc : list string) :
  NoDup acc ->
  NoDup (fold_left (fun acc note => fold_left set_add (Note.tags note) acc) ns acc).
Proof.
  revert acc. induction ns as [|n ns IH]; intros acc H; simpl; [assumption |].
  apply IH. now apply fold_set_add_NoDup.
Qed.

Lemma allTags_In (ns : list Note) (t : string) :
  In t (allTags ns) <-> exists n, In n ns /\ In t (Note.tags n).
Proof.
  unfold allTags, tagSet. split.
  - intros H. eapply Permutation_in in H; [| symmetry; apply array_sort_perm].
    apply fold_tags_In in H as [[] | H]. exact H.
  - intros H. eapply Permutation_in; [apply array_sort_perm |].
    apply fold_tags_In. now right.
Qed.

Lemma sorted_nodup_strict (l : list string) :
  StronglySorted (fun a b => default_cmp a b <= 0) l -> NoDup l ->
  StronglySorted (fun a b => String.compare a b = Lt) l.
Proof.
  induction 1 as [|x l Hl IH Hx]; intros Hnd; [constructor |].
  inversion Hnd as [|? ? Hnin Hnd']; subst.
  constructor; [now apply IH |].
  rewrite Forall_forall in *. intros y Hy. specialize (Hx y Hy).
  apply default_cmp_le in Hx.
  destruct (String.compare x y) eqn:E; [| reflexivity | now destruct Hx].
  apply String.compare_eq_iff in E. subst. contradiction.
Qed.

(** X1: the filter bar lists exactly the tags that some note carries, each
    once, in strictly ascending code-unit order. *)
Theorem allTags_spec (ns : list Note) :
  (forall t, In t (allTags ns) <-> exists n, In n ns /\ In t (Note.tags n))
  /\ StronglySorted (fun a b => String.compare a b = Lt) (allTags ns).
Proof.
  split; [intros t; apply allTags_In |].
  apply sorted_nodup_strict.
  - unfold allTags. apply array_sort_ordered.
    + intros a b H. apply default_cmp_le. rewrite String.compare_antisym.
      unfold default_cmp in H. destruct (String.compare a b); simpl; try lia;
        discriminate.
    + intros a b c H1 H2. apply default_cmp_le in H1, H2. apply default_cmp_le.
      eapply string_compare_le_trans; eassumption.
  - unfold allTags. eapply Permutation_NoDup; [apply array_sort_perm |].
    apply fold_tags_NoDup. constructor.
Qed.

Lemma filteredNotes_nil_iff query tagFilter ns :
  filteredNotes query tagFilter ns = [] <->
  forall n, In n ns ->
            matchesSearch query n && matchesTag tagFilter n = false.
Proof.
  unfold filteredNotes. split.
  - intros E n Hn. destruct (matchesSearch query n && matchesTag tagFilter n) eqn:Em;
      [| reflexivity].
    assert (H : In n (filter (fun note => matchesSearch query note
                                          && matchesTag tagFilter note) ns)).
    { apply filter_In. now split. }
    eapply Permutation_in in H; [| apply array_sort_perm].
    rewrite E in H. destruct H.
  - intros H.
    assert (E : filter (fun note => matchesSearch query note
                                    && matchesTag tagFilter note) ns = []).
    { induction ns as [|n ns IH]; [reflexivity |]. cbn [filter].
      rewrite (H n) by now left. apply IH. intros m Hm. apply H. now right. }
    now rewrite E.
Qed.

Lemma matchesSearch_empty n : matchesSearch EmptyString n = true.
Proof. reflexivity. Qed.

(** X2: with an empty query, selecting a tag shows at least one note exactly
    when the tag is in the filter bar's list; a selected tag that no note
    carries hides every note, whatever the query. *)
Theorem tag_filter_nonempty_iff (ns : list Note) (t : string) :
  (filteredNotes EmptyString (Some t) ns <> [] <-> In t (allTags ns))
  /\ (forall query, ~ In t (allTags ns) ->
                    filteredNotes query (Some t) ns = []).
Proof.
  assert (Hstale : forall query, ~ In t (allTags ns) ->
                                 filteredNotes query (Some t) ns = []).
  { intros query Hnin. apply filteredNotes_nil_iff. intros n Hn.
    destruct (matchesTag (Some t) n) eqn:E; [| apply andb_false_r].
    exfalso. apply Hnin. apply allTags_In. exists n. split; [assumption |].
    now apply array_includes_spec. }
  split; [| exact Hstale]. split.
  - intros Hne. destruct (in_dec string_dec t (allTags ns)) as [H | H];
      [assumption |]. now apply (Hstale EmptyString) in H.
  - intros Hin Hnil. apply allTags_In in Hin as (n & Hn & Ht).
    rewrite filteredNotes_nil_iff in Hnil. specialize (Hnil n Hn).
    rewrite matchesSearch_empty in Hnil. cbn in Hnil.
    apply array_includes_spec in Ht. congruence.
Qed.

(** ** Narrowing the search *)

Lemma includes_trans (s q r : string) :
  includes s q = true -> includes q r = true -> includes s r = true.
Proof.
  rewrite !includes_spec. intros (a & b & ->) (c & d & ->).
  exists (a ++ c), (d ++ b).
  now rewrite !JsonFacts.string_app_assoc.
Qed.

Lemma matchesSearch_narrow (q q' : string) (n : Note) :
  contained_nocase q q' ->
  matchesSearch q' n = true -> matchesSearch q n = true.
Proof.
  intros Hc. apply includes_lower_spec in Hc.
  unfold matchesSearch. destruct (String.eqb_spec q EmptyString) as [-> | Hq];
    [reflexivity |].
  destruct (String.eqb_spec q' EmptyString) as [-> | Hq'].
  - destruct q; [now destruct Hq | discriminate Hc].
  - cbn [orb]. rewrite !orb_true_iff, !existsb_exists.
    intros [[H | H] | (t & Ht & H)].
    + left; left. eapply includes_trans; eassumption.
    + left; right. eapply includes_trans; eassumption.
    + right. exists t. split; [assumption |]. eapply includes_trans; eassumption.
Qed.

(** X3: a longer query never shows more: when the query [q] is contained,
    up to letter case, in the query [q'], every note visible for [q'] is
    visible for [q]. *)
Theorem filteredNotes_narrow
  (ns : list Note) (q q' : string) (tagFilter : option string) (n : Note) :
  contained_nocase q q' ->
  In n (filteredNotes q' tagFilter ns) -> In n (filteredNotes q tagFilter ns).
Proof.
  intros Hc H. unfold filteredNotes in *.
  eapply Permutation_in in H; [| symmetry; apply array_sort_perm].
  eapply Permutation_in; [apply array_sort_perm |].
  apply filter_In in H as [Hin Hm]. apply filter_In. split; [assumption |].
  apply andb_true_iff in Hm as [Hs Ht]. apply andb_true_iff. split; [| assumption].
  eapply matchesSearch_narrow; eassumption.
Qed.

Lemma filteredNotes_narrow_witness :
  In (note_titled "Work plan")
     (filteredNotes "WOR" None [note_titled "Work plan"; note_titled "Home"]).
Proof.
  apply (filteredNotes_narrow _ "WOR" "work" None).
  - exists EmptyString, "wor", "k". split; [reflexivity |].
    repeat constructor.
  - left. reflexivity.
Defined.

Lemma tag_filter_nonempty_iff_witness :
  filteredNotes "a" (Some "z") [note_B; note_A] = [].
Proof.
  apply (proj2 (tag_filter_nonempty_iff [note_B; note_A] "z") "a").
  intros [H | [H | []]]; discriminate H.
Defined.

(** ** The tag buttons and the empty list *)

Lemma filter_unfiltered (ns : list Note) :
  filter (fun note => matchesSearch EmptyString note && matchesTag None note) ns
  = ns.
Proof.
  induction ns as [|n ns IH]; [reflexivity |].
  cbn [filter]. rewrite IH. reflexivity.
Qed.

(** X4: with an empty query, pressing the button of a tag of the filter bar
    that is not selected shows a non-empty list of notes that all carry the
    tag; pressing it again shows the whole collection. *)
Theorem toggleTag_twice (s : State) (t : string) :
  searchQuery s = EmptyString ->
  selectedTag s <> Some t ->
  In t (allTags (notes s)) ->
  visible (toggleTag t s) <> []
  /\ (forall n, In n (visible (toggleTag t s)) -> In t (Note.tags n))
  /\ Permutation (notes s) (visible (toggleTag t (toggleTag t s))).
Proof.
  intros Hq Hsel Hin.
  assert (E1 : toggleTag t s = setSelectedTag (Some t) s).
  { unfold toggleTag. destruct (selectedTag s) as [u|]; [| reflexivity].
    destruct (String.eqb_spec u t) as [-> | _]; [now destruct Hsel | reflexivity]. }
  assert (E2 : toggleTag t (toggleTag t s) = setSelectedTag None s).
  { rewrite E1. unfold toggleTag. cbn. now rewrite String.eqb_refl. }
  rewrite E2, E1. unfold visible. cbn. rewrite Hq. repeat split.
  - now apply tag_filter_nonempty_iff.
  - intros n Hn. unfold filteredNotes in Hn.
    eapply Permutation_in in Hn; [| symmetry; apply array_sort_perm].
    apply filter_In in Hn as [_ Hm]. apply andb_true_iff in Hm as [_ Hm].
    now apply array_includes_spec in Hm.
  - unfold filteredNotes.
    rewrite filter_unfiltered. apply array_sort_perm.
Qed.

Lemma toggleTag_twice_witness :
  visible (toggleTag "x" (state world_AB)) <> [].
Proof.
  apply (toggleTag_twice (state world_AB) "x").
  - reflexivity.
  - discriminate.
  - vm_compute. left. reflexivity.
Defined.

Lemma truthy_tag_false (t : option string) :
  truthy_tag t = false <-> t = None \/ t = Some EmptyString.
Proof.
  destruct t as [[|c t]|]; cbn; split; intros H; auto; try discriminate.
  - destruct H as [H | H]; discriminate.
Qed.

Lemma length_zero_nil {A : Type} (l : list A) :
  (length l =? 0)%nat = true <-> l = [].
Proof. destruct l; cbn; split; intros H; auto; discriminate. Qed.

(** X5: unless the selected tag is the empty string, the list view says
    "No notes yet" exactly when the collection is empty and neither a query
    nor a tag is set. *)
Theorem emptyMessage_no_notes_yet (s : State) :
  selectedTag s <> Some EmptyString ->
  (emptyMessage s = Some "No notes yet"
   <-> notes s = [] /\ searchQuery s = EmptyString /\ selectedTag s = None).
Proof.
  intros Hsel. unfold emptyMessage, visible. split.
  - destruct (length _ =? 0)%nat eqn:El; [| discriminate].
    apply length_zero_nil in El.
    destruct (truthy (searchQuery s)) eqn:Eq; [discriminate |].
    destruct (truthy_tag (selectedTag s)) eqn:Et; [discriminate |].
    intros _. apply truthy_false in Eq.
    apply truthy_tag_false in Et as [Et | Et]; [| contradiction].
    rewrite Eq, Et in El. repeat split; try assumption.
    rewrite filteredNotes_nil_iff in El.
    destruct (notes s) as [|n ns]; [reflexivity |].
    specialize (El n (or_introl eq_refl)). discriminate El.
  - intros (Hn & Hq & Ht). rewrite Hn, Hq, Ht. reflexivity.
Qed.

Lemma emptyMessage_no_notes_yet_witness :
  emptyMessage initialState = Some "No notes yet"
  <-> notes initialState = [] /\ searchQuery initialState = EmptyString
      /\ selectedTag initialState = None.
Proof.
  apply (emptyMessage_no_notes_yet initialState). discriminate.
Defined.

(** The hypothesis is needed: with the empty string selected as tag the
    view says "No notes yet" over a collection that is not empty. *)
Example emptyMessage_empty_tag :
  emptyMessage (setSelectedTag (Some EmptyString) (state world_AB))
  = Some "No notes yet".
Proof. reflexivity. Qed.

(** ** More on saving *)

Lemma trimEnd_blank (s : string) :
  truthy (trimEnd s) = false <-> all_space s = true.
Proof.
  induction s as [|c s IH]; cbn [trimEnd all_space]; [split; reflexivity |].
  destruct (trimEnd s) as [|d t] eqn:E.
  - destruct (is_space c); cbn.
    + split; intros _; [now apply IH | reflexivity].
    + split; discriminate.
  - cbn. split; [discriminate |]. intros H.
    apply andb_true_iff in H as [_ H]. apply IH in H. discriminate H.
Qed.

Lemma all_space_trimStart (s : string) :
  all_space (trimStart s) = all_space s.
Proof.
  induction s as [|c s IH]; [reflexivity |]. cbn [trimStart all_space].
  destruct (is_space c) eqn:E; [exact IH |]. cbn [all_space]. now rewrite E.
Qed.

Lemma trim_blank (s : string) :
  truthy (trim s) = false <-> all_space s = true.
Proof. unfold trim. now rewrite trimEnd_blank, all_space_trimStart. Qed.

(** X6: [saveNote] does nothing at all exactly when title and content both
    consist of white space only; otherwise it leaves the editor with an
    emptied buffer. *)
Theorem saveNote_noop_iff_blank (w : World) (now : Z) (uuid : string) :
  (saveNote now uuid w = w
   <-> all_space (title (state w)) = true /\ all_space (content (state w)) = true)
  /\ (saveNote now uuid w <> w ->
      isEditing (state (saveNote now uuid w)) = false
      /\ currentNote (state (saveNote now uuid w)) = None
      /\ title (state (saveNote now uuid w)) = EmptyString
      /\ content (state (saveNote now uuid w)) = EmptyString
      /\ currentTags (state (saveNote now uuid w)) = []).
Proof.
  assert (Hcases : (all_space (title (state w)) = true
                    /\ all_space (content (state w)) = true)
                   \/ savable (state w)).
  { unfold savable.
    destruct (truthy (trim (title (state w)))) eqn:Et; [right; now left |].
    destruct (truthy (trim (content (state w)))) eqn:Ec; [right; now right |].
    left. split; now apply trim_blank. }
  destruct Hcases as [[Ht Hc] | Hs].
  - assert (E : saveNote now uuid w = w).
    { unfold saveNote. apply trim_blank in Ht, Hc. now rewrite Ht, Hc. }
    rewrite E. split; [tauto | intros H; now destruct H].
  - assert (E : saveNote now uuid w
                = mkWorld
                    (cancelEdit (state (setNotes (saved_notes now uuid (state w)) w)))
                    (localStorage (setNotes (saved_notes now uuid (state w)) w))).
    { unfold saveNote.
      destruct Hs as [H | H]; rewrite H; cbn [negb andb]; [| rewrite andb_false_r];
        reflexivity. }
    assert (Hne : saveNote now uuid w <> w).
    { rewrite E. intros H. apply (f_equal state) in H. cbn in H.
      destruct Hs as [Hs | Hs].
      - apply (f_equal title) in H. cbn in H. rewrite <- H in Hs. discriminate Hs.
      - apply (f_equal content) in H. cbn in H. rewrite <- H in Hs. discriminate Hs. }
    split.
    + split; [intros H; contradiction |].
      intros [Ht Hc]. apply trim_blank in Ht, Hc. destruct Hs; congruence.
    + intros _. rewrite E. cbn. repeat split.
Qed.

Lemma saveNote_noop_iff_blank_witness :
  isEditing (state (saveNote 300 "C" world_new)) = false
  /\ currentNote (state (saveNote 300 "C" world_new)) = None
  /\ title (state (saveNote 300 "C" world_new)) = EmptyString
  /\ content (state (saveNote 300 "C" world_new)) = EmptyString
  /\ currentTags (state (saveNote 300 "C" world_new)) = [].
Proof.
  apply (saveNote_noop_iff_blank world_new 300 "C").
  intros H. apply (f_equal (fun w => title (state w))) in H. discriminate H.
Defined.

Lemma sort_insert_front (x : Note) (l : list Note) :
  Forall (fun y => Note.updatedAt y <= Note.updatedAt x) l ->
  sort_insert (fun a b => Note.updatedAt b - Note.updatedAt a) x l = x :: l.
Proof.
  intros H. destruct l as [|y l]; [reflexivity |]. cbn [sort_insert].
  inversion H as [|? ? Hy _]; subst.
  destruct (Z.leb_spec (Note.updatedAt y - Note.updatedAt x) 0); [reflexivity | lia].
Qed.

(** X7: a note created at a time not before the last modification of any
    other note is shown first in the unfiltered list, in front of the list
    as it was. *)
Theorem saveNote_add_shown_first (w : World) (now : Z) (uuid : string) :
  currentNote (state w) = None ->
  savable (state w) ->
  (forall n, In n (notes (state w)) -> Note.updatedAt n <= now) ->
  filteredNotes EmptyString None (notes (state (saveNote now uuid w)))
  = Note.mk uuid (title (state w)) (content (state w)) (currentTags (state w))
            now now
    :: filteredNotes EmptyString None (notes (state w)).
Proof.
  intros Hcur Hs Hclock. rewrite saveNote_notes by assumption.
  unfold saved_notes. rewrite Hcur. unfold filteredNotes.
  rewrite !filter_unfiltered. cbn [array_sort].
  apply sort_insert_front. cbn.
  eapply Permutation_Forall; [apply array_sort_perm |].
  apply Forall_forall. exact Hclock.
Qed.

Lemma saveNote_add_shown_first_witness :
  filteredNotes EmptyString None (notes (state (saveNote 300 "C" world_new)))
  = Note.mk "C" "t" EmptyString ["x"] 300 300
    :: filteredNotes EmptyString None (notes (state world_new)).
Proof.
  apply (saveNote_add_shown_first world_new 300 "C").
  - reflexivity.
  - left. reflexivity.
  - intros n [<- | [<- | []]]; cbn; lia.
Defined.

Lemma saved_notes_ids now uuid s cur :
  currentNote s = Some cur ->
  map Note.id (saved_notes now uuid s) = map Note.id (notes s).
Proof.
  intros E. unfold saved_notes. rewrite E, map_map. apply map_ext.
  intros n. now destruct (String.eqb (Note.id n) (Note.id cur)).
Qed.

Lemma kept_ids_distinct (keep : Note -> bool) (ns : list Note) :
  NoDup (map Note.id ns) -> NoDup (map Note.id (filter keep ns)).
Proof.
  induction ns as [|n ns IH]; cbn; [trivial |].
  intros H. apply NoDup_cons_iff in H as [Hfresh Hrest].
  destruct (keep n); cbn; [| now apply IH].
  apply NoDup_cons_iff. split; [| now apply IH].
  rewrite in_map_iff. intros (m & Em & Hm). apply Hfresh.
  rewrite <- Em. apply in_map. now apply filter_In in Hm.
Qed.

(** X8: pairwise distinct ids stay pairwise distinct under saving and
    deleting, provided an id generated for a new note is not in use. *)
Theorem ids_stay_distinct (w : World) (now : Z) (uuid id : string)
        (confirmed : bool) :
  NoDup (map Note.id (notes (state w))) ->
  (currentNote (state w) = None -> ~ In uuid (map Note.id (notes (state w)))) ->
  NoDup (map Note.id (notes (state (saveNote now uuid w))))
  /\ NoDup (map Note.id (notes (state (deleteNote id confirmed w)))).
Proof.
  intros Hnd Hfresh. split.
  - unfold saveNote.
    destruct (negb (truthy (trim (title (state w))))
              && negb (truthy (trim (content (state w))))); [assumption |].
    cbn. destruct (currentNote (state w)) as [cur|] eqn:Ecur.
    + now rewrite (saved_notes_ids _ _ _ cur).
    + unfold saved_notes. rewrite Ecur. cbn. constructor; [now apply Hfresh | assumption].
  - destruct confirmed; cbn; [now apply kept_ids_distinct | assumption].
Qed.

Lemma ids_stay_distinct_witness :
  NoDup (map Note.id (notes (state (saveNote 300 "C" world_new))))
  /\ NoDup (map Note.id (notes (state (deleteNote "A" true world_new)))).
Proof.
  apply (ids_stay_distinct world_new 300 "C" "A" true).
  - cbn. repeat constructor; cbn; intuition discriminate.
  - intros _. cbn. intros [H | [H | []]]; discriminate H.
Defined.

(** X9: adding a note under an unused id and deleting that id gives back
    the collection; the storage slot then holds it, unless it is empty. *)
Theorem add_then_delete (w : World) (now : Z) (uuid : string) :
  currentNote (state w) = None ->
  savable (state w) ->
  ~ In uuid (map Note.id (notes (state w))) ->
  let w' := deleteNote uuid true (saveNote now uuid w) in
  notes (state w') = notes (state w)
  /\ (notes (state w) <> [] ->
      localStorage w' = Some (JSON_stringify (notes (state w)))).
Proof.
  intros Hcur Hs Hfresh w'. subst w'.
  assert (E : notes (state (deleteNote uuid true (saveNote now uuid w)))
              = notes (state w)).
  { cbn [deleteNote setNotes state notes].
    rewrite saveNote_notes by assumption. unfold saved_notes. rewrite Hcur.
    cbn [filter Note.id]. rewrite String.eqb_refl. cbn [negb].
    apply filter_other_ids_fresh. intros n Hn E. apply Hfresh.
    rewrite <- E. now apply in_map. }
  split; [exact E |].
  intros Hne. cbn [deleteNote setNotes localStorage].
  cbn [deleteNote setNotes state notes] in E. rewrite E.
  now apply persist_nonempty.
Qed.

Lemma add_then_delete_witness :
  notes (state (deleteNote "C" true (saveNote 300 "C" world_new)))
  = notes (state world_new).
Proof.
  apply (add_then_delete world_new 300 "C").
  - reflexivity.
  - left. reflexivity.
  - cbn. intros [H | [H | []]]; discriminate H.
Defined.

Lemma filter_filter_same {A : Type} (p : A -> bool) (l : list A) :
  filter p (filter p l) = filter p l.
Proof.
  induction l as [|x l IH]; [reflexivity |]. cbn [filter].
  destruct (p x) eqn:E; [| exact IH]. cbn [filter]. now rewrite E, IH.
Qed.

Lemma filter_filter_comm {A : Type} (p q : A -> bool) (l : list A) :
  filter p (filter q l) = filter q (filter p l).
Proof.
  induction l as [|x l IH]; [reflexivity |]. cbn [filter].
  destruct (q x) eqn:Eq; destruct (p x) eqn:Ep; cbn [filter];
    rewrite ?Eq, ?Ep, IH; reflexivity.
Qed.

Lemma persist_persist (ns : list Note) (slot : option string) :
  persist ns (persist ns slot) = persist ns slot.
Proof. unfold persist. now destruct (0 <? length ns)%nat. Qed.

(** X10: deleting the same id a second time changes nothing, neither the
    state nor the storage slot; deleting two ids leaves the same collection
    in either order. *)
Theorem deleteNote_twice (w : World) (id id' : string) :
  deleteNote id true (deleteNote id true w) = deleteNote id true w
  /\ notes (state (deleteNote id true (deleteNote id' true w)))
     = notes (state (deleteNote id' true (deleteNote id true w))).
Proof.
  split.
  - unfold deleteNote, setNotes. cbn [state notes localStorage].
    rewrite filter_filter_same, persist_persist. reflexivity.
  - cbn. apply filter_filter_comm.
Qed.

(** X11: when the clock does not run behind the creation time of any note,
    every note of the collection keeps [createdAt <= updatedAt] under
    saving and deleting. *)
Theorem timestamps_stay_ok (w : World) (now : Z) (uuid id : string)
        (confirmed : bool) :
  timestamps_ok (notes (state w)) ->
  (forall n, In n (notes (state w)) -> Note.createdAt n <= now) ->
  timestamps_ok (notes (state (saveNote now uuid w)))
  /\ timestamps_ok (notes (state (deleteNote id confirmed w))).
Proof.
  unfold timestamps_ok. intros Hok Hclock. split.
  - unfold saveNote.
    destruct (negb (truthy (trim (title (state w))))
              && negb (truthy (trim (content (state w))))); [assumption |].
    cbn. unfold saved_notes. destruct (currentNote (state w)) as [cur|].
    + rewrite Forall_map. rewrite Forall_forall in *. intros n Hn.
      destruct (String.eqb (Note.id n) (Note.id cur)); cbn; auto.
    + constructor; [cbn; lia | assumption].
  - destruct confirmed; cbn; [| assumption].
    rewrite Forall_forall in *. intros n Hn. apply filter_In in Hn. now apply Hok.
Qed.

Lemma timestamps_stay_ok_witness :
  timestamps_ok (notes (state (saveNote 300 "C" world_editing_A)))
  /\ timestamps_ok (notes (state (deleteNote "A" true world_editing_A))).
Proof.
  apply (timestamps_stay_ok world_editing_A 300 "C" "A" true).
  - repeat constructor; cbn; lia.
  - intros n [<- | [<- | []]]; cbn; lia.
Defined.

(** X12: opening a note of a collection with pairwise distinct ids and
    saving it as it is changes nothing but that note's [updatedAt]. *)
Theorem edit_then_save_touches (w : World) (now : Z) (uuid : string) (cur : Note) :
  NoDup (map Note.id (notes (state w))) ->
  In cur (notes (state w)) ->
  savable (editNote cur (state w)) ->
  notes (state (saveNote now uuid (on_state (editNote cur) w)))
  = map (fun n => if String.eqb (Note.id n) (Note.id cur) then touched now n else n)
        (notes (state w)).
Proof.
  intros Hnd Hin Hs. rewrite saveNote_notes by exact Hs.
  unfold saved_notes. cbn. apply map_ext_in. intros n Hn.
  destruct (String.eqb_spec (Note.id n) (Note.id cur)) as [E | _]; [| reflexivity].
  assert (n = cur) as ->; [| reflexivity].
  clear Hs. induction (notes (state w)) as [|m ns IH]; [destruct Hn |].
  cbn in Hnd. inversion Hnd as [|? ? Hnin Hnd']; subst.
  destruct Hn as [-> | Hn], Hin as [-> | Hin]; try reflexivity.
  - exfalso. apply Hnin. rewrite E. now apply in_map.
  - exfalso. apply Hnin. rewrite <- E. now apply in_map.
  - now apply IH.
Qed.

Lemma edit_then_save_touches_witness :
  notes (state (saveNote 300 "C" (on_state (editNote note_A) world_AB)))
  = [note_B; touched 300 note_A].
Proof.
  apply (edit_then_save_touches world_AB 300 "C" note_A).
  - cbn. repeat constructor; cbn; intuition discriminate.
  - right. left. reflexivity.
  - left. reflexivity.
Defined.

(** ** More on tags *)

Lemma filter_app_fresh (t : string) (ts : list string) :
  ~ In t ts ->
  filter (fun u => negb (String.eqb u t)) ts = ts.
Proof.
  induction ts as [|u ts IH]; intros H; [reflexivity |]. cbn [filter].
  destruct (String.eqb_spec u t) as [-> | _].
  - exfalso. apply H. now left.
  - cbn [negb]. rewrite IH; [reflexivity |]. intros Hin. apply H. now right.
Qed.

(** X13: removing a tag the buffer does not have changes no tag; removing
    the tag that [addTag] has just appended gives back the tag list as it
    was. *)
Theorem removeTag_undoes_addTag (s : State) (t : string) :
  (~ In t (currentTags s) -> currentTags (removeTag t s) = currentTags s)
  /\ (let tag := toLowerCase (trim (tagInput s)) in
      tag <> EmptyString -> ~ In tag (currentTags s) ->
      currentTags (removeTag tag (addTag s)) = currentTags s).
Proof.
  split.
  - intros H. cbn. now apply filter_app_fresh.
  - intros tag Hne Hnin. unfold addTag. fold tag.
    destruct tag as [|c tag'] eqn:Et; [now destruct Hne |]. cbn [truthy andb].
    destruct (array_includes (currentTags s) (String c tag')) eqn:Hin.
    { apply array_includes_spec in Hin. contradiction. }
    cbn. rewrite filter_app. cbn [filter]. rewrite String.eqb_refl. cbn [negb].
    rewrite filter_app_fresh by assumption. apply app_nil_r.
Qed.

Lemma removeTag_undoes_addTag_witness :
  currentTags (removeTag "tag" (addTag (state world_AB)))
  = currentTags (state world_AB).
Proof.
  apply (proj2 (removeTag_undoes_addTag (state world_AB) "tag")).
  - discriminate.
  - intros [H | []]. discriminate H.
Defined.

(** ** More on a session *)

Lemma world_session_reachable : reachable None world_session.
Proof.
  unfold world_session.
  eapply reach_step; [| apply step_saveNote].
  eapply reach_step; [| apply step_setTitle].
  eapply reach_step; [| apply step_startNewNote].
  apply reach_mount. reflexivity.
Qed.

Lemma reachable_synced_witness :
  localStorage world_session = Some (JSON_stringify (notes (state world_session))).
Proof.
  apply (reachable_synced None world_session).
  - apply world_session_reachable.
  - discriminate.
Defined.

Lemma world_tagged_reachable : reachable None world_tagged.
Proof.
  unfold world_tagged.
  eapply reach_step; [| apply step_saveNote].
  eapply reach_step; [| apply step_addTag].
  eapply reach_step; [| apply step_setTagInput].
  eapply reach_step; [| apply step_addTag].
  eapply reach_step; [| apply step_setTagInput].
  eapply reach_step; [| apply step_setTitle].
  eapply reach_step; [| apply step_startNewNote].
  apply reach_mount. reflexivity.
Qed.

Lemma reachable_no_case_variants_witness :
  notes (state world_tagged) = [Note.mk "C" "t" EmptyString ["work"] 300 300]
  /\ no_case_variants (Note.tags (Note.mk "C" "t" EmptyString ["work"] 300 300)).
Proof.
  split; [reflexivity |].
  apply (reachable_no_case_variants None world_tagged).
  - apply world_tagged_reachable.
  - intros ns [= <-]. constructor.
  - left. reflexivity.
Defined.

Lemma persist_cases (ns : list Note) (slot : option string) :
  (ns = [] /\ persist ns slot = slot)
  \/ (ns <> [] /\ persist ns slot = Some (JSON_stringify ns)).
Proof.
  destruct ns as [|n ns]; [left; now split | right].
  split; [discriminate | reflexivity].
Qed.

(** What a step does to the collection and the slot: nothing, or what
    [setNotes] does. *)
Lemma step_storage (w w' : World) :
  step w w' ->
  (notes (state w') = notes (state w) /\ localStorage w' = localStorage w)
  \/ localStorage w' = persist (notes (state w')) (localStorage w).
Proof.
  intros Hstep. destruct Hstep; try (left; split; reflexivity).
  - unfold saveNote.
    destruct (negb (truthy (trim (title (state w))))
              && negb (truthy (trim (content (state w)))));
      [left; now split | right; reflexivity].
  - destruct confirmed; [right; reflexivity | left; now split].
  - left. split; [apply addTag_notes | reflexivity].
Qed.

(** X16: a session never clears the storage slot and never leaves in it a
    text that cannot be loaded: the slot holds what it held at mount time
    or the serialization of a non-empty collection, which [load] reads
    back. *)
Theorem storage_never_spoiled (slot : option string) (w : World) :
  reachable slot w ->
  localStorage w = slot
  \/ exists ns, ns <> []
                /\ localStorage w = Some (JSON_stringify ns)
                /\ load (localStorage w) = Done ns.
Proof.
  induction 1 as [w Hm | w w' _ IH Hstep].
  - unfold mount in Hm. destruct (load slot) as [ns| |]; try discriminate.
    injection Hm as <-. cbn [setNotes localStorage].
    destruct (persist_cases ns slot) as [[_ E] | [Hne E]]; rewrite E.
    + now left.
    + right. exists ns. repeat split; try assumption. apply load_stringify.
  - destruct (step_storage _ _ Hstep) as [[_ E] | E].
    + now rewrite E.
    + rewrite E.
      destruct (persist_cases (notes (state w')) (localStorage w))
        as [[_ E'] | [Hne E']]; rewrite E'; [exact IH |].
      right. exists (notes (state w')). repeat split; try assumption.
      apply load_stringify.
Qed.

Lemma storage_never_spoiled_witness :
  localStorage world_session = None
  \/ exists ns, ns <> []
                /\ localStorage world_session = Some (JSON_stringify ns)
                /\ load (localStorage world_session) = Done ns.
Proof.
  apply (storage_never_spoiled None world_session).
  apply world_session_reachable.
Defined.

(** X17: reloading the page during a session whose collection is not empty
    brings up that collection, with the storage slot as it is and every
    other part of the state back at its initial value. *)
Theorem reload_restores (slot : option string) (w : World) :
  reachable slot w ->
  notes (state w) <> [] ->
  mount (localStorage w)
  = Done (mkWorld (mkState (notes (state w)) false None EmptyString None
                           EmptyString EmptyString EmptyString [])
                  (localStorage w)).
Proof.
  intros Hr Hne. pose proof (reachable_synced slot w Hr Hne) as E.
  unfold mount. rewrite E, load_stringify. unfold setNotes.
  cbn [state localStorage initialState notes isEditing currentNote searchQuery
       selectedTag title content tagInput currentTags].
  now rewrite persist_nonempty.
Qed.

Lemma reload_restores_witness :
  mount (localStorage world_session)
  = Done (mkWorld (mkState (notes (state world_session)) false None EmptyString
                           None EmptyString EmptyString EmptyString [])
                  (localStorage world_session)).
Proof.
  apply (reload_restores None world_session).
  - apply world_session_reachable.
  - discriminate.
Defined.

(** X18: only saving a savable buffer and a confirmed deletion touch the
    collection or the storage slot; every other event leaves both alone. *)
Theorem step_frame (w w' : World) :
  step w w' ->
  (notes (state w') = notes (state w) /\ localStorage w' = localStorage w)
  \/ (exists now uuid, savable (state w) /\ w' = saveNote now uuid w)
  \/ (exists id, w' = deleteNote id true w).
Proof.
  intros Hstep. destruct Hstep; try (left; split; reflexivity).
  - destruct (truthy (trim (title (state w)))) eqn:Et.
    { right; left. exists now, uuid. split; [now left | reflexivity]. }
    destruct (truthy (trim (content (state w)))) eqn:Ec.
    { right; left. exists now, uuid. split; [now right | reflexivity]. }
    left. unfold saveNote. rewrite Et, Ec. now split.
  - destruct confirmed; [right; right; now exists id | left; now split].
  - left. split; [apply addTag_notes | reflexivity].
Qed.

Lemma step_frame_witness :
  (notes (state (on_state addTag world_AB)) = notes (state world_AB)
   /\ localStorage (on_state addTag world_AB) = localStorage world_AB)
  \/ (exists now uuid, savable (state world_AB)
                       /\ on_state addTag world_AB = saveNote now uuid world_AB)
  \/ (exists id, on_state addTag world_AB = deleteNote id true world_AB).
Proof.
  apply (step_frame world_AB (on_state addTag world_AB)).
  apply step_addTag.
Defined.

(** X19: two collections with the same serialization are the same
    collection. *)
Theorem JSON_stringify_injective (a b : list Note) :
  JSON_stringify a = JSON_stringify b -> a = b.
Proof.
  intros E. pose proof (load_stringify a) as Ha.
  rewrite E, load_stringify in Ha. now injection Ha.
Qed.

Lemma JSON_stringify_injective_witness : [note_A] = [note_A].
Proof.
  apply (JSON_stringify_injective [note_A] [note_A]). reflexivity.
Defined.
